(** * RAG-Agent: UID derivation, row annotation, batched embedding and
      the UID-keyed upsert engine

    A shallow embedding of
      - [src/utils/uidGenerator.js]  (extractPropertyCode, generateUID,
        addUIDsToRows, isValidUID),
      - [src/services/upsert.js]     (upsertDocumentsWithUID, and the
        embedding step of processAndUpsertCSV),
      - [src/services/ingestion.js]  (generateEmbeddings),
    together with the properties the specification states about them. *)

From Stdlib Require Import ZArith NArith Ascii String QArith DecimalString.
From stdpp Require Import base option list gmap fin_maps strings.

Local Open Scope nat_scope.
Local Open Scope list_scope.

(** ** JavaScript values and strings *)

Module JS.

(** A JavaScript string is a sequence of UTF-16 code units. *)
Abbreviation jstring := (list N).

(** The code units of an ASCII literal. *)
Definition lit (s : string) : jstring :=
  map N_of_ascii (list_ascii_of_string s).

(** The values that reach the functions below: rows parsed from CSV hold
    strings, a missing column reads as [undefined], and the annotator
    writes strings or [null]; booleans and (integer-valued) numbers stand
    for the remaining primitive kinds. *)
Inductive value :=
| Undefined
| Null
| Bool (b : bool)
| Num (n : Z)
| Str (s : jstring).

(** ToBoolean. *)
Definition truthy (v : value) : bool :=
  match v with
  | Undefined | Null => false
  | Bool b => b
  | Num n => negb (n =? 0)%Z
  | Str s => match s with [] => false | _ :: _ => true end
  end.

(** [typeof v === 'string']. *)
Definition is_string (v : value) : bool :=
  match v with Str _ => true | _ => false end.

(** [a || b]. *)
Definition or_else (a b : value) : value := if truthy a then a else b.

(** WhiteSpace and LineTerminator code points: what [String.prototype.trim]
    strips and what [\s] matches. *)
Definition is_space (c : N) : bool :=
  ((9 <=? c) && (c <=? 13) || (c =? 32) || (c =? 160) || (c =? 5760)
   || (8192 <=? c) && (c <=? 8202) || (c =? 8232) || (c =? 8233)
   || (c =? 8239) || (c =? 8287) || (c =? 12288) || (c =? 65279))%N.

(** [[0-9]], which is [\d]. *)
Definition is_digit (c : N) : bool := ((48 <=? c) && (c <=? 57))%N.

Definition is_upper (c : N) : bool := ((65 <=? c) && (c <=? 90))%N.
Definition is_lower (c : N) : bool := ((97 <=? c) && (c <=? 122))%N.

(** [[A-Z]] under the [i] flag (no [u] flag): a code unit above 127 is never
    canonicalised to an ASCII one, so exactly the ASCII letters match. *)
Definition is_letter (c : N) : bool := is_upper c || is_lower c.

(** [[A-Z0-9]] under the [i] flag. *)
Definition is_alnum (c : N) : bool := is_letter c || is_digit c.

Fixpoint trimStart (s : jstring) : jstring :=
  match s with
  | c :: s' => if is_space c then trimStart s' else s
  | [] => []
  end.

Definition trimEnd (s : jstring) : jstring := rev (trimStart (rev s)).

(** [s.trim()]. *)
Definition trim (s : jstring) : jstring := trimEnd (trimStart s).

(** [s.replace(/\s+/g, '')]: every run of white space is deleted. *)
Definition remove_spaces (s : jstring) : jstring :=
  filter (fun c => is_space c = false) s.

(** [s.toUpperCase()] on ASCII text, the only text it is applied to here
    (a match of [[A-Z]\d+] under the [i] flag). *)
Definition upper_unit (c : N) : N := if is_lower c then (c - 32)%N else c.
Definition toUpperCase (s : jstring) : jstring := map upper_unit s.

(** The longest prefix of [s] whose units satisfy [p], and the rest. *)
Fixpoint span (p : N -> bool) (s : jstring) : jstring * jstring :=
  match s with
  | c :: s' =>
      if p c then let '(a, b) := span p s' in (c :: a, b) else ([], s)
  | [] => ([], [])
  end.

End JS.

Import JS.

(** ** uidGenerator.js *)

(** [s.match(/^([A-Z]\d+)/i)]: capture group 1, or [None] for no match.
    [\d+] is greedy and nothing follows it in the pattern, so the group is
    the letter and the longest run of digits after it. *)
Definition match_code_prefix (s : jstring) : option jstring :=
  match s with
  | c :: s' =>
      if is_letter c then
        match span is_digit s' with
        | ([], _) => None
        | (d :: ds, _) => Some (c :: d :: ds)
        end
      else None
  | [] => None
  end.

(** [s.match(/^([A-Z]\d+)$/i)]: as above, and the match must reach the end
    of the input. *)
Definition match_code_whole (s : jstring) : option jstring :=
  match s with
  | c :: s' =>
      if is_letter c then
        match span is_digit s' with
        | (d :: ds, []) => Some (c :: d :: ds)
        | _ => None
        end
      else None
  | [] => None
  end.

(** A nullable string as a value. *)
Definition of_nullable (o : option jstring) : value :=
  match o with Some s => Str s | None => Null end.

(** [extractPropertyCode(propertyName)]; [None] is [null]. *)
Definition extractPropertyCode (propertyName : value) : option jstring :=
  if negb (truthy propertyName) || negb (is_string propertyName) then None
  else
    match propertyName with
    | Str s =>
        match match_code_prefix (trim s) with
        | Some m => Some (toUpperCase m)
        | None =>
            match match_code_whole (trim s) with
            | Some m => Some (toUpperCase m)
            | None => None
            end
        end
    | _ => None (* not reached: the guard above returns for a non-string *)
    end.

(** [generateUID(propertyName, unitNumber)]; [None] is [null]. *)
Definition generateUID (propertyName unitNumber : value) : option jstring :=
  let propertyCode := extractPropertyCode propertyName in
  if negb (truthy (of_nullable propertyCode)) then None
  else if negb (truthy unitNumber) || negb (is_string unitNumber) then None
  else
    match propertyCode, unitNumber with
    | Some code, Str u =>
        let cleanUnitNumber := remove_spaces (trim u) in
        Some (code ++ lit "_" ++ cleanUnitNumber)
    | _, _ => None (* not reached *)
    end.

(** A row: a plain object from column names to values. *)
Abbreviation row := (gmap jstring value).

(** [row[column]]: a missing property reads as [undefined]. *)
Definition get (r : row) (column : jstring) : value :=
  default Undefined (r !! column).

(** The [options] argument of [addUIDsToRows]; an absent field takes its
    default in the destructuring pattern. *)
Record options := {
  propertyNameColumn : option jstring;
  unitColumn : option jstring;
  uidColumn : option jstring;
}.

Definition no_options : options :=
  {| propertyNameColumn := None; unitColumn := None; uidColumn := None |}.

Definition propertyNameColumn_of (o : options) : jstring :=
  default (lit "Property Name") (propertyNameColumn o).
Definition unitColumn_of (o : options) : jstring :=
  default (lit "Unit") (unitColumn o).
Definition uidColumn_of (o : options) : jstring :=
  default (lit "UID") (uidColumn o).

(** The callback of [rows.map] in [addUIDsToRows]: the new row and whether
    the success counter (rather than the failure counter) was incremented.
    [{...row, [uidColumn]: v}] copies the row and sets one property. *)
Definition annotate (o : options) (r : row) : row * bool :=
  let propertyName := get r (propertyNameColumn_of o) in
  let unitNumber := get r (unitColumn_of o) in
  let uid := generateUID propertyName unitNumber in
  if truthy (of_nullable uid)
  then (<[uidColumn_of o := of_nullable uid]> r, true)
  else (<[uidColumn_of o := Null]> r, false).

(** What [addUIDsToRows] produces: the array it returns and the two
    counters it prints in its summary. *)
Record annotated := {
  rowsWithUIDs : list row;
  successCount : nat;
  failCount : nat;
}.

(** [rows.map(...)] with the two counters threaded through. *)
Fixpoint annotate_from (o : options) (rows : list row)
    (succeeded failed : nat) : annotated :=
  match rows with
  | [] => {| rowsWithUIDs := [];
             successCount := succeeded; failCount := failed |}
  | r :: rows' =>
      let '(r', ok) := annotate o r in
      let rest :=
        if ok then annotate_from o rows' (S succeeded) failed
        else annotate_from o rows' succeeded (S failed) in
      {| rowsWithUIDs := r' :: rowsWithUIDs rest;
         successCount := successCount rest; failCount := failCount rest |}
  end.

(** [addUIDsToRows(rows, options)]. *)
Definition addUIDsToRows (rows : list row) (o : options) : annotated :=
  annotate_from o rows 0 0.

(** [/^[A-Z]\d+_[A-Z0-9]+$/i.test(s)].  The classes [\d], [_] and the end
    of input are pairwise exclusive, so the greedy match is the only one. *)
Definition test_uidPattern (s : jstring) : bool :=
  match s with
  | c :: s1 =>
      is_letter c &&
      match span is_digit s1 with
      | (_ :: _, u :: s2) =>
          (u =? 95)%N &&
          match s2 with
          | [] => false
          | _ :: _ => forallb is_alnum s2
          end
      | _ => false
      end
  | [] => false
  end.

(** [isValidUID(uid)]. *)
Definition isValidUID (uid : value) : bool :=
  if negb (truthy uid) || negb (is_string uid) then false
  else
    match uid with
    | Str s => test_uidPattern s
    | _ => false (* not reached *)
    end.

(** ** Effects: store and provider calls, exceptions *)

(** What is thrown: an error object, identified by its message. *)
Abbreviation error := (list N) (only parsing).

(** How a computation ends. *)
Inductive outcome (A : Type) :=
| Return (a : A)
| Throw (e : error).
Arguments Return {A} a.
Arguments Throw {A} e.

(** A computation over a world [W] (the store, the provider, the clock). *)
Definition M (W A : Type) : Type := W -> outcome A * W.

Definition ret {W A} (a : A) : M W A := fun w => (Return a, w).

Definition throw {W A} (e : error) : M W A := fun w => (Throw e, w).

Definition bind {W A B} (m : M W A) (k : A -> M W B) : M W B :=
  fun w =>
    match m w with
    | (Return a, w') => k a w'
    | (Throw e, w') => (Throw e, w')
    end.

(** [try { m } catch (e) { h e }]. *)
Definition try_catch {W A} (m : M W A) (h : error -> M W A) : M W A :=
  fun w =>
    match m w with
    | (Return a, w') => (Return a, w')
    | (Throw e, w') => h e w'
    end.

Notation "'do' x <- m ; k" := (bind m (fun x => k))
  (at level 10, x name, m at level 100, k at level 200, only parsing).
Notation "'do' ' m ; k" := (bind m (fun _ => k))
  (at level 10, m at level 100, k at level 200, only parsing).

(** [for (const x of l) { s = body x s }]. *)
Fixpoint for_of {W A S} (l : list A) (body : A -> S -> M W S) (s : S)
    : M W S :=
  match l with
  | [] => ret s
  | x :: l' => do s' <- body x s; for_of l' body s'
  end.

(** ** upsert.js: the upsert engine *)

(** An embedding vector; its components are carried, never computed with. *)
Abbreviation vector := (list Q).

Abbreviation rowid := nat (only parsing).
Abbreviation timestamp := nat (only parsing).

(** A chunk [{ pageContent, metadata }]; [metadata] may be absent
    ([chunk.metadata?.UID]). *)
Record chunk := {
  pageContent : jstring;
  metadata : option row;
}.

(** The object built for each chunk and passed to [insert]. *)
Record document := {
  content : jstring;
  embedding : option vector;
  doc_metadata : option row;
  source : jstring;
  chunk_index : nat;
  uid : value;
}.

(** The object passed to [update]. *)
Record patch := {
  new_content : jstring;
  new_embedding : option vector;
  new_metadata : option row;
  new_uid : value;
  new_updated_at : timestamp;
}.

(** The [{ data, error }] a store request resolves to. *)
Record response (A : Type) := {
  data : option A;
  error_of : option error;
}.
Arguments data {A} _.
Arguments error_of {A} _.

(** The store and the clock as the engine uses them:
    - [select_id uid source]:
      [from('units_vacancy').select('id').eq('metadata->>UID', uid)
       .eq('source', source).limit(1)];
    - [update_by_id p id]: [from('units_vacancy').update(p).eq('id', id)];
    - [insert_row doc]:    [from('units_vacancy').insert(doc)];
    - [date_now]:          [new Date().toISOString()].
    A request may resolve with an error or reject (throw). *)
Class Store (W : Type) := {
  select_id : value -> jstring -> M W (response (list rowid));
  update_by_id : patch -> rowid -> M W (response unit);
  insert_row : document -> M W (response unit);
  date_now : W -> timestamp;
}.

Record counts := {
  inserted : nat;
  updated : nat;
  failed : nat;
}.

Definition incr_inserted (c : counts) : counts :=
  {| inserted := S (inserted c); updated := updated c; failed := failed c |}.
Definition incr_updated (c : counts) : counts :=
  {| inserted := inserted c; updated := S (updated c); failed := failed c |}.
Definition incr_failed (c : counts) : counts :=
  {| inserted := inserted c; updated := updated c; failed := S (failed c) |}.

(** [chunk.metadata?.UID || null]. *)
Definition chunk_uid (c : chunk) : value :=
  or_else (match metadata c with
           | Some m => get m (lit "UID")
           | None => Undefined
           end) Null.

(** The callback of [chunks.map] in [upsertDocumentsWithUID];
    [embeddings_list[idx]] past the end is [undefined]. *)
Definition to_document (embeddings_list : list vector) (src : jstring)
    (idx : nat) (c : chunk) : document :=
  {| content := pageContent c;
     embedding := embeddings_list !! idx;
     doc_metadata := metadata c;
     source := src;
     chunk_index := idx;
     uid := chunk_uid c |}.

(** The object literal passed to [update] for [doc], built at time [now]. *)
Definition patch_of (doc : document) (now : nat) : patch :=
  {| new_content := content doc;
     new_embedding := embedding doc;
     new_metadata := doc_metadata doc;
     new_uid := uid doc;
     new_updated_at := now |}.

Section Engine.
Context {W : Type} `{Store W}.

(** [if (error) throw error]. *)
Definition throw_if_error {A} (r : response A) : M W unit :=
  match error_of r with
  | Some e => throw e
  | None => ret tt
  end.

(** The body of the [try] block for one document; the counters are
    incremented last, after every statement that can throw. *)
Definition upsert_try (src : jstring) (doc : document) (c : counts)
    : M W counts :=
  if truthy (uid doc) then
    do r <- select_id (uid doc) src;
    do ' throw_if_error r;
    match data r with
    | Some (existing0 :: _) =>
        do now <- (fun w => (Return (date_now w), w));
        do u <- update_by_id (patch_of doc now) existing0;
        do ' throw_if_error u;
        ret (incr_updated c)
    | _ =>
        do i <- insert_row doc;
        do ' throw_if_error i;
        ret (incr_inserted c)
    end
  else
    do i <- insert_row doc;
    do ' throw_if_error i;
    ret (incr_inserted c).

(** One iteration of the loop: [try { ... } catch (error) { failed++ }]. *)
Definition upsert_one (src : jstring) (doc : document) (c : counts)
    : M W counts :=
  try_catch (upsert_try src doc c) (fun _ => ret (incr_failed c)).

(** [upsertDocumentsWithUID(chunks, embeddings_list, source)]. *)
Definition upsertDocumentsWithUID (chunks : list chunk)
    (embeddings_list : list vector) (src : jstring) : M W counts :=
  let documents := imap (to_document embeddings_list src) chunks in
  do c <- for_of documents (upsert_one src)
            {| inserted := 0; updated := 0; failed := 0 |};
  ret c.

End Engine.

(** ** The [units_vacancy] table (supabase/schema.sql) *)

(** A row of [units_vacancy] without its primary key. *)
Record units_vacancy := {
  col_content : jstring;
  col_embedding : option vector;
  col_metadata : option row;
  col_source : jstring;
  col_chunk_index : nat;
  col_uid : value;
  created_at : timestamp;
  updated_at : timestamp;
}.

(** The store: the table keyed by [id] (PRIMARY KEY), the time [NOW()]
    reads, and the errors the coming requests will meet ([None] or an
    exhausted script: the request is served). *)
Record db := {
  table : gmap rowid units_vacancy;
  clock : timestamp;
  faults : list (option error);
}.

(** [String(v)]: how a filter value is written into a request. *)
Definition to_text (v : value) : jstring :=
  match v with
  | Undefined => lit "undefined"
  | Null => lit "null"
  | Bool true => lit "true"
  | Bool false => lit "false"
  | Num n => lit (NilZero.string_of_int (Z.to_int n))
  | Str s => s
  end.

(** [metadata->>'key'] on a present property: JSON null gives SQL NULL. *)
Definition json_text (v : value) : option jstring :=
  match v with
  | Undefined | Null => None
  | _ => Some (to_text v)
  end.

(** [metadata->>'UID'] of a stored row. *)
Definition stored_uid_text (r : units_vacancy) : option jstring :=
  match col_metadata r with
  | Some m => match m !! lit "UID" with Some v => json_text v | None => None end
  | None => None
  end.

(** [metadata->>'UID' = uid AND source = src]. *)
Definition matches (uid : value) (src : jstring) (r : units_vacancy) : bool :=
  bool_decide (stored_uid_text r = Some (to_text uid))
  && bool_decide (col_source r = src).

(** The rows a lookup for [(src, uid)] ranges over. *)
Definition matching (uid : value) (src : jstring)
    (t : gmap rowid units_vacancy) : gmap rowid units_vacancy :=
  filter (fun kr => matches uid src kr.2 = true) t.

(** The store once a request has reached it: time has passed and the
    head of the fault script is consumed. *)
Definition served (w : db) : db :=
  {| table := table w; clock := S (clock w); faults := tail (faults w) |}.

(** A request reaches the store: the error it meets, if any, and the store
    from then on. *)
Definition arrive (w : db) : option error * db :=
  (match faults w with f :: _ => f | [] => None end, served w).

Definition set_table (t : gmap rowid units_vacancy) (w : db) : db :=
  {| table := t; clock := clock w; faults := faults w |}.

Definition failure {A} (e : error) : response A :=
  {| data := None; error_of := Some e |}.

Definition db_select_id (uid : value) (src : jstring)
    : M db (response (list rowid)) :=
  fun w =>
    let '(f, w1) := arrive w in
    match f with
    | Some e => (Return (failure e), w1)
    | None =>
        let ids := (map_to_list (matching uid src (table w1))).*1 in
        (Return {| data := Some (take 1 ids); error_of := None |}, w1)
    end.

(** The columns an update writes; the trigger
    [update_documents_updated_at] then sets [updated_at] to [NOW()]. *)
Definition apply_patch (p : patch) (now : timestamp) (r : units_vacancy)
    : units_vacancy :=
  {| col_content := new_content p;
     col_embedding := new_embedding p;
     col_metadata := new_metadata p;
     col_source := col_source r;
     col_chunk_index := col_chunk_index r;
     col_uid := new_uid p;
     created_at := created_at r;
     updated_at := now |}.

Definition db_update_by_id (p : patch) (id : rowid) : M db (response unit) :=
  fun w =>
    let '(f, w1) := arrive w in
    match f with
    | Some e => (Return (failure e), w1)
    | None =>
        (Return {| data := None; error_of := None |},
         set_table (alter (apply_patch p (clock w1)) id (table w1)) w1)
    end.

(** The row an insert creates; [created_at] and [updated_at] default to
    [NOW()]. *)
Definition new_row (doc : document) (now : timestamp) : units_vacancy :=
  {| col_content := content doc;
     col_embedding := embedding doc;
     col_metadata := doc_metadata doc;
     col_source := source doc;
     col_chunk_index := chunk_index doc;
     col_uid := uid doc;
     created_at := now;
     updated_at := now |}.

(** [id] defaults to a key not yet in the table. *)
Definition db_insert_row (doc : document) : M db (response unit) :=
  fun w =>
    let '(f, w1) := arrive w in
    match f with
    | Some e => (Return (failure e), w1)
    | None =>
        (Return {| data := None; error_of := None |},
         set_table (<[fresh (dom (table w1)) := new_row doc (clock w1)]>
                      (table w1)) w1)
    end.

#[global] Instance db_store : Store db := {|
  select_id := db_select_id;
  update_by_id := db_update_by_id;
  insert_row := db_insert_row;
  date_now := clock;
|}.

(** ** Embedding requests (ingestion.js, upsert.js) *)

(** The embedding client: [embeddings.embedDocuments(texts)]. *)
Class Embeddings (W : Type) := {
  embedDocuments : list jstring -> M W (list vector);
}.

(** [a.slice(i, j)] for [0 <= i]. *)
Definition slice {A} (i j : nat) (a : list A) : list A :=
  take (j - i) (drop i a).

(** The default of the [batchSize] parameter of [generateEmbeddings]. *)
Definition default_batchSize : nat := 50.

Section Embedding.
Context {W : Type} `{Embeddings W}.

(** The [for (let i = 0; i < chunks.length; i += batchSize)] loop of
    [generateEmbeddings], entered at index [i] with [embeddings_list]
    collected so far.  [None]: the iterations allowed by [fuel] did not
    end the loop. *)
Fixpoint generateEmbeddings_from (fuel : nat) (chunks : list chunk)
    (batchSize i : nat) (embeddings_list : list vector) (w : W)
    : option (outcome (list vector) * W) :=
  match fuel with
  | 0 => None
  | S fuel' =>
      if i <? length chunks then
        let batch := slice i (i + batchSize) chunks in
        let texts := map pageContent batch in
        match try_catch (embedDocuments texts) (fun e => throw e) w with
        | (Return batchEmbeddings, w') =>
            generateEmbeddings_from fuel' chunks batchSize (i + batchSize)
              (embeddings_list ++ batchEmbeddings) w'
        | (Throw e, w') => Some (Throw e, w')
        end
      else Some (Return embeddings_list, w)
  end.

(** [generateEmbeddings(chunks, batchSize)]. *)
Definition generateEmbeddings (fuel : nat) (chunks : list chunk)
    (batchSize : nat) (w : W) : option (outcome (list vector) * W) :=
  generateEmbeddings_from fuel chunks batchSize 0 [] w.

(** Step 4 of [processAndUpsertCSV]:
    [texts = chunks.map(chunk => chunk.pageContent)];
    [embeddings_list = await embeddings.embedDocuments(texts)]. *)
Definition processAndUpsertCSV_embed (chunks : list chunk)
    : M W (list vector) :=
  let texts := map pageContent chunks in
  embedDocuments texts.

End Embedding.

(** One request as the provider saw it: the texts and the answer. *)
Record call := {
  call_texts : list jstring;
  call_reply : outcome (list vector);
}.

(** A client that records every request made to an underlying one. *)
Definition recording {W} (E : Embeddings W) : Embeddings (list call * W) :=
  {| embedDocuments texts := fun '(log, w) =>
       let '(r, w') := embedDocuments texts w in
       (r, (log ++ [{| call_texts := texts; call_reply := r |}], w')) |}.

(** A provider that answers every text with the empty vector. *)
Definition null_provider : Embeddings unit :=
  {| embedDocuments texts := ret (map (fun _ => []) texts) |}.

(** ** Vocabulary of the specification *)

(** The text starts with one letter followed by at least one digit. *)
Definition starts_with_code (t : jstring) : Prop :=
  exists c d rest,
    t = c :: d :: rest /\ is_letter c = true /\ is_digit d = true.

(** [ds] is the whole run of digits in front of [rest]. *)
Definition digit_run (ds rest : jstring) : Prop :=
  ds <> [] /\ forallb is_digit ds = true /\
  match rest with [] => True | r :: _ => is_digit r = false end.

(** A property code: one upper-case letter, then digits only. *)
Definition is_property_code (code : jstring) : Prop :=
  exists c ds,
    code = c :: ds /\ is_upper c = true /\ ds <> [] /\
    forallb is_digit ds = true.

(** UID derivation fails for the row: [generateUID] returns null on its
    property and unit columns. *)
Definition derivation_fails (o : options) (r : row) : bool :=
  match generateUID (get r (propertyNameColumn_of o))
                    (get r (unitColumn_of o)) with
  | Some _ => false
  | None => true
  end.

(** The row with the derived UID, or null, under the UID column. *)
Definition with_uid (o : options) (r : row) : row :=
  <[uidColumn_of o :=
      of_nullable (generateUID (get r (propertyNameColumn_of o))
                               (get r (unitColumn_of o)))]> r.

(** A store request made in world [w] fails with [e], leaving world [w']:
    it rejects, or it resolves with an error. *)
Inductive request_fails {W A} (m : M W (response A)) (w : W)
    (e : error) (w' : W) : Prop :=
| rejects : m w = (Throw e, w') -> request_fails m w e w'
| resolves_with_error (r : response A) :
    m w = (Return r, w') -> error_of r = Some e -> request_fails m w e w'.

(** The lookup or the write of one unit fails with a store error. *)
Inductive unit_fails {W} `{Store W} (src : jstring) (doc : document)
    (w : W) (e : error) (w' : W) : Prop :=
| lookup_fails :
    truthy (uid doc) = true ->
    request_fails (select_id (uid doc) src) w e w' ->
    unit_fails src doc w e w'
| update_fails (r : response (list nat)) (w1 : W) (id : nat) (ids : list nat) :
    truthy (uid doc) = true ->
    select_id (uid doc) src w = (Return r, w1) ->
    error_of r = None -> data r = Some (id :: ids) ->
    request_fails (update_by_id (patch_of doc (date_now w1)) id) w1 e w' ->
    unit_fails src doc w e w'
| insert_fails_after_lookup (r : response (list nat)) (w1 : W) :
    truthy (uid doc) = true ->
    select_id (uid doc) src w = (Return r, w1) ->
    error_of r = None -> data r = None \/ data r = Some [] ->
    request_fails (insert_row doc) w1 e w' ->
    unit_fails src doc w e w'
| insert_fails :
    truthy (uid doc) = false ->
    request_fails (insert_row doc) w e w' ->
    unit_fails src doc w e w'.

(** No request to come is scripted to fail. *)
Definition reliable (w : db) : Prop := Forall (fun f => f = None) (faults w).



(** The vectors a recorded request was answered with. *)
Definition reply_vectors (c : call) : list vector :=
  match call_reply c with Return vs => vs | Throw _ => [] end.

(** The requests [processAndUpsertCSV] makes to an always-answering provider
    for its embedding step. *)
Definition embed_step_calls (chunks : list chunk) : list call :=
  (@processAndUpsertCSV_embed _ (recording null_provider) chunks ([], tt)).2.1.

(** The [idx]-th chunk [processAndUpsertCSV] builds for a sheet whose rows
    all read "S0002 - 101 Maple", "D2". *)
Definition sample_chunk (idx : nat) : chunk :=
  {| pageContent := lit "Property Name: S0002 - 101 Maple | Unit: D2";
     metadata :=
       Some {[ lit "Property Name" := Str (lit "S0002 - 101 Maple");
               lit "Unit" := Str (lit "D2");
               lit "UID" := Str (lit "S0002_D2");
               lit "chunk_index" := Num 0;
               lit "parent_doc_index" := Num (Z.of_nat idx) ]} |}.

(** An empty, reliable store at time 0. *)
Definition empty_db : db := {| table := ∅; clock := 0; faults := [] |}.

(** The document built from the first sample chunk for the file "f.csv". *)
Definition sample_doc : document := to_document [] (lit "f.csv") 0 (sample_chunk 0).

(** A store that already holds the sample document. *)
Definition seeded_db : db :=
  {| table := {[ 7 := new_row sample_doc 1 ]}; clock := 1; faults := [] |}.

(** A store holding the sample document twice, as two racing runs leave it. *)
Definition duplicated_db : db :=
  {| table := {[ 7 := new_row sample_doc 1; 8 := new_row sample_doc 1 ]};
     clock := 1; faults := [] |}.

(** A unit whose metadata holds the number 0 as its UID, and the unit
    whose UID is the text "0". *)
Definition numbered_chunk : chunk :=
  {| pageContent := lit "Unit: 0";
     metadata := Some {[ lit "UID" := Num 0 ]} |}.

Definition labelled_chunk : chunk :=
  {| pageContent := lit "Unit: 0";
     metadata := Some {[ lit "UID" := Str (lit "0") ]} |}.

(** An empty store whose first request will fail. *)
Definition failing_db : db :=
  {| table := ∅; clock := 0; faults := [Some (lit "connection reset")] |}.

(** [inserted + updated + failed]. *)
Definition processed (c : counts) : nat :=
  inserted c + updated c + failed c.

(** ** uidGenerator.js: parseUID *)

(** [s.split(sep)] for a one-unit separator: the pieces between its
    occurrences (one piece, the whole string, when it does not occur). *)
Fixpoint split_on (sep : N) (s : jstring) : list jstring :=
  match s with
  | [] => [[]]
  | c :: s' =>
      if (c =? sep)%N then [] :: split_on sep s'
      else
        match split_on sep s' with
        | piece :: pieces => (c :: piece) :: pieces
        | [] => [[c]]
        end
  end.

(** [a[i]] on an array of strings; past the end it is [undefined]. *)
Definition element (a : list jstring) (i : nat) : value :=
  match a !! i with Some s => Str s | None => Undefined end.

(** The object [parseUID] returns. *)
Record parsed_uid := {
  propertyCode : value;
  unitNumber : value;
  parsed_from : value;
}.

(** [parseUID(uid)]; [None] is [null]. *)
Definition parseUID (uid : value) : option parsed_uid :=
  if negb (isValidUID uid) then None
  else
    match uid with
    | Str s =>
        let parts := split_on 95 s in
        Some {| propertyCode := element parts 0;
                unitNumber := element parts 1;
                parsed_from := uid |}
    | _ => None (* not reached: [isValidUID] holds of strings only *)
    end.

(** The text holds no underscore. *)
Definition no_underscore (s : jstring) : Prop :=
  Forall (fun c => c <> 95%N) s.

(** ** textCleaner.js: cleanText *)

(** [[\x00-\x1F\x7F-\x9F]]: the C0 and C1 control characters and DEL. *)
Definition is_control (c : N) : bool :=
  ((c <=? 31) || (127 <=? c) && (c <=? 159))%N.

(** [s.replace(/\s+/g, ' ')], scanning from a position that is inside a run
    of white space ([in_run]) or not: every maximal run becomes one space. *)
Fixpoint collapse_spaces_from (in_run : bool) (s : jstring) : jstring :=
  match s with
  | [] => []
  | c :: s' =>
      if is_space c then
        if in_run then collapse_spaces_from true s'
        else 32%N :: collapse_spaces_from true s'
      else c :: collapse_spaces_from false s'
  end.

Definition collapse_spaces (s : jstring) : jstring :=
  collapse_spaces_from false s.

(** [s.replace(/[\x00-\x1F\x7F-\x9F]/g, '')]. *)
Definition remove_controls (s : jstring) : jstring :=
  filter (fun c => is_control c = false) s.

(** [s.replace(/\r\n/g, '\n')]. *)
Fixpoint replace_crlf (s : jstring) : jstring :=
  match s with
  | [] => []
  | c :: s' =>
      match s' with
      | d :: s'' =>
          if ((c =? 13) && (d =? 10))%N then 10%N :: replace_crlf s''
          else c :: replace_crlf s'
      | [] => [c]
      end
  end.

(** [s.replace(/\r/g, '\n')]. *)
Definition replace_cr (s : jstring) : jstring :=
  map (fun c => if (c =? 13)%N then 10%N else c) s.

(** What a run of [n] line feeds becomes under [/\n{3,}/g -> '\n\n']. *)
Definition squeezed_run (n : nat) : jstring :=
  repeat 10%N (if 3 <=? n then 2 else n).

(** [s.replace(/\n{3,}/g, '\n\n')], scanning with [pending] line feeds of
    the current run already read. *)
Fixpoint squeeze_newlines_from (pending : nat) (s : jstring) : jstring :=
  match s with
  | [] => squeezed_run pending
  | c :: s' =>
      if (c =? 10)%N then squeeze_newlines_from (S pending) s'
      else squeezed_run pending ++ c :: squeeze_newlines_from 0 s'
  end.

Definition squeeze_newlines (s : jstring) : jstring :=
  squeeze_newlines_from 0 s.

(** [cleanText(text)]. *)
Definition cleanText (text : value) : jstring :=
  if negb (truthy text) || negb (is_string text) then []
  else
    match text with
    | Str s =>
        let cleaned := collapse_spaces s in
        let cleaned := trim cleaned in
        let cleaned := remove_controls cleaned in
        let cleaned := replace_cr (replace_crlf cleaned) in
        squeeze_newlines cleaned
    | _ => [] (* not reached *)
    end.

(** Every control character of the text is a white-space character (tab,
    line feed, ...): none would survive the white-space pass only to be
    deleted afterwards. *)
Definition controls_are_spaces (s : jstring) : Prop :=
  Forall (fun c => is_control c = true -> is_space c = true) s.

(** Read from a position that follows a white-space unit ([after_space])
    or not, the text has only plain spaces as white space, and never two
    in a row. *)
Fixpoint tidy_from (after_space : bool) (s : jstring) : bool :=
  match s with
  | [] => true
  | c :: s' =>
      if is_space c then (c =? 32)%N && negb after_space && tidy_from true s'
      else tidy_from false s'
  end.

(** ** Vocabulary for the engine over the table *)

(** Some stored row matches [(src, uid)]. *)
Definition has_match (uid : value) (src : jstring)
    (t : gmap nat units_vacancy) : Prop :=
  exists id r, t !! id = Some r /\ matches uid src r = true.

(** From table [t] to table [t'] no row has been removed, every row has
    kept its source, chunk index and creation time, and the rows of
    sources other than [src] have not changed at all. *)
Definition kept (src : jstring) (t t' : gmap nat units_vacancy) : Prop :=
  forall id r,
    t !! id = Some r ->
    exists r',
      t' !! id = Some r'
      /\ col_source r' = col_source r
      /\ col_chunk_index r' = col_chunk_index r
      /\ created_at r' = created_at r
      /\ (col_source r <> src -> r' = r).

(** The number of chunks that carry a UID. *)
Definition with_uid_count (chunks : list chunk) : nat :=
  length (filter (fun c => truthy (chunk_uid c) = true) chunks).

(** What the engine relies on in a document: its [source] is the source of
    the run, and its [uid] is the UID its metadata will be found by. *)
Definition coherent (src : jstring) (doc : document) : Prop :=
  source doc = src
  /\ (truthy (uid doc) = true ->
      match doc_metadata doc with
      | Some m =>
          match m !! lit "UID" with
          | Some v => json_text v = Some (to_text (uid doc))
          | None => False
          end
      | None => False
      end).

(** ** upsert.js, ingestion.js: deleting a source, inserting in batches *)

(** The object [insertDocuments] builds for each chunk: a [document]
    without the [uid] property. *)
Record plain_document := {
  plain_content : jstring;
  plain_embedding : option vector;
  plain_metadata : option row;
  plain_source : jstring;
  plain_chunk_index : nat;
}.

(** The two further requests made on [units_vacancy]:
    - [delete_by_source source]:
      [from('units_vacancy').delete().eq('source', source).select()],
      whose data are the deleted rows (kept here by their ids);
    - [insert_rows batch]: [from('units_vacancy').insert(batch).select()],
      whose data are the inserted rows (by their ids). *)
Class BulkStore (W : Type) := {
  delete_by_source : jstring -> M W (response (list rowid));
  insert_rows : list plain_document -> M W (response (list rowid));
}.

Section Bulk.
Context {W : Type} `{BulkStore W}.

(** [deleteDocumentsBySource(source)] of upsert.js, and
    [deleteExistingDocuments(source)] of ingestion.js, which differs in
    what it logs only: [data?.length || 0], or the error thrown. *)
Definition deleteDocumentsBySource (src : jstring) : M W nat :=
  do r <- delete_by_source src;
  match error_of r with
  | Some e => throw e
  | None =>
      ret (match data r with Some rows => length rows | None => 0 end)
  end.

Definition deleteExistingDocuments (src : jstring) : M W nat :=
  deleteDocumentsBySource src.

(** The callback of [chunks.map] in [insertDocuments]. *)
Definition to_plain_document (embeddings_list : list vector) (src : jstring)
    (idx : nat) (c : chunk) : plain_document :=
  {| plain_content := pageContent c;
     plain_embedding := embeddings_list !! idx;
     plain_metadata := metadata c;
     plain_source := src;
     plain_chunk_index := idx |}.

(** The [for (let i = 0; i < documents.length; i += batchSize)] loop of
    [insertDocuments], entered at index [i] with [inserted] counted so far;
    [None]: the iterations allowed by [fuel] did not end the loop. *)
Fixpoint insertDocuments_from (fuel : nat) (documents : list plain_document)
    (batchSize i inserted : nat) (w : W) : option (outcome nat * W) :=
  match fuel with
  | 0 => None
  | S fuel' =>
      if i <? length documents then
        let batch := slice i (i + batchSize) documents in
        match
          try_catch
            (do r <- insert_rows batch;
             match error_of r with
             | Some e => throw e
             | None => ret (inserted + length batch)
             end)
            (fun e => throw e) w
        with
        | (Return inserted', w') =>
            insertDocuments_from fuel' documents batchSize (i + batchSize)
              inserted' w'
        | (Throw e, w') => Some (Throw e, w')
        end
      else Some (Return inserted, w)
  end.

(** [insertDocuments(chunks, embeddings_list, source, batchSize)]. *)
Definition insertDocuments (fuel : nat) (chunks : list chunk)
    (embeddings_list : list vector) (src : jstring) (batchSize : nat) (w : W)
    : option (outcome nat * W) :=
  let documents := imap (to_plain_document embeddings_list src) chunks in
  insertDocuments_from fuel documents batchSize 0 0 w.

End Bulk.

(** The default of the [batchSize] parameter of [insertDocuments]. *)
Definition default_insert_batchSize : nat := 100.

(** The row a bulk insert creates for a document; the [uid] column, which
    the document does not set, is NULL. *)
Definition new_plain_row (doc : plain_document) (now : nat) : units_vacancy :=
  {| col_content := plain_content doc;
     col_embedding := plain_embedding doc;
     col_metadata := plain_metadata doc;
     col_source := plain_source doc;
     col_chunk_index := plain_chunk_index doc;
     col_uid := Null;
     created_at := now;
     updated_at := now |}.

(** The rows of a source. *)
Definition of_source (src : jstring) (t : gmap nat units_vacancy)
    : gmap nat units_vacancy :=
  filter (fun kr => col_source kr.2 = src) t.

(** The rows of every other source. *)
Definition of_other_sources (src : jstring) (t : gmap nat units_vacancy)
    : gmap nat units_vacancy :=
  filter (fun kr => col_source kr.2 <> src) t.

Definition db_delete_by_source (src : jstring) : M db (response (list nat)) :=
  fun w =>
    let '(f, w1) := arrive w in
    match f with
    | Some e => (Return (failure e), w1)
    | None =>
        (Return {| data := Some (map_to_list (of_source src (table w1))).*1;
                   error_of := None |},
         set_table (of_other_sources src (table w1)) w1)
    end.

(** The rows of one INSERT statement, each under an id not yet in use. *)
Fixpoint add_rows (docs : list plain_document) (now : nat)
    (t : gmap nat units_vacancy) : list nat * gmap nat units_vacancy :=
  match docs with
  | [] => ([], t)
  | doc :: docs' =>
      let id := fresh (dom t) in
      let '(ids, t') := add_rows docs' now (<[id := new_plain_row doc now]> t) in
      (id :: ids, t')
  end.

Definition db_insert_rows (docs : list plain_document)
    : M db (response (list nat)) :=
  fun w =>
    let '(f, w1) := arrive w in
    match f with
    | Some e => (Return (failure e), w1)
    | None =>
        let '(ids, t') := add_rows docs (clock w1) (table w1) in
        (Return {| data := Some ids; error_of := None |}, set_table t' w1)
    end.

#[global] Instance db_bulk : BulkStore db := {|
  delete_by_source := db_delete_by_source;
  insert_rows := db_insert_rows;
|}.

(** ** upsert.js: processAndUpsertCSV *)

(** What [processAndUpsertCSV] returns. *)
Record upsert_result := {
  success : bool;
  result_source : jstring;
  totalRows : nat;
  documentsWithUID : nat;
  result_inserted : nat;
  result_updated : nat;
  result_failed : nat;
}.

(** [{...metadata, chunk_index: 0, parent_doc_index: idx}]. *)
Definition chunk_metadata (r : row) (idx : nat) : row :=
  <[lit "parent_doc_index" := Num (Z.of_nat idx)]>
    (<[lit "chunk_index" := Num 0]> r).

Section Pipeline.
Context {W : Type} `{Store W} `{Embeddings W}.

(** [Object.entries(row).filter(([key]) => key !== 'UID')
      .map(([key, value]) => `${key}: ${value}`).join(' | ')]
    for the [idx]-th row kept.  The order of a row's properties is not part
    of a finite map, so the joined text is taken as given. *)
Variable textParts : nat -> row -> jstring.

(** Steps 1 and 2 of [processAndUpsertCSV]: the annotated rows that have a
    UID, each turned into a document. *)
Definition documents_of (rows : list row) (o : options) : list chunk :=
  let rowsWithUIDs :=
    rowsWithUIDs
      (addUIDsToRows rows
         {| propertyNameColumn := Some (propertyNameColumn_of o);
            unitColumn := Some (unitColumn_of o);
            uidColumn := None |}) in
  imap (fun idx r =>
          {| pageContent := cleanText (Str (textParts idx r));
             metadata := Some r |})
       (filter (fun r => truthy (get r (lit "UID")) = true) rowsWithUIDs).

(** Step 3: one chunk per document. *)
Definition chunks_of (rows : list row) (o : options) : list chunk :=
  imap (fun idx doc =>
          {| pageContent := pageContent doc;
             metadata :=
               Some (chunk_metadata (default ∅ (metadata doc)) idx) |})
       (documents_of rows o).

(** [processAndUpsertCSV(rows, source, options)]. *)
Definition processAndUpsertCSV (rows : list row) (src : jstring)
    (o : options) : M W upsert_result :=
  try_catch
    (let documents := documents_of rows o in
     let chunks := chunks_of rows o in
     let texts := map pageContent chunks in
     do embeddings_list <- embedDocuments texts;
     do result <- upsertDocumentsWithUID chunks embeddings_list src;
     ret {| success := true;
            result_source := src;
            totalRows := length rows;
            documentsWithUID := length documents;
            result_inserted := inserted result;
            result_updated := updated result;
            result_failed := failed result |})
    (fun e => throw e).

End Pipeline.

(** ** A provider beside the table *)

(** A store computation run in a world that also holds a provider. *)
Definition beside_provider {P A} (m : M db A) : M (P * db) A :=
  fun '(p, w) => let '(r, w') := m w in (r, (p, w')).

(** A provider computation run in a world that also holds the store. *)
Definition beside_store {P A} (m : M P A) : M (P * db) A :=
  fun '(p, w) => let '(r, p') := m p in (r, (p', w)).

#[global] Instance store_beside {P} : Store (P * db) := {|
  select_id uid src := beside_provider (select_id uid src);
  update_by_id p id := beside_provider (update_by_id p id);
  insert_row doc := beside_provider (insert_row doc);
  date_now pw := clock pw.2;
|}.

#[global] Instance bulk_beside {P} : BulkStore (P * db) := {|
  delete_by_source src := beside_provider (delete_by_source src);
  insert_rows docs := beside_provider (insert_rows docs);
|}.

#[global] Instance embeddings_beside {P} `{Embeddings P}
    : Embeddings (P * db) := {|
  embedDocuments texts := beside_store (embedDocuments texts);
|}.

(** The provider answers every request. *)
Definition always_answers {P} `{Embeddings P} : Prop :=
  forall texts p, exists vs p', embedDocuments texts p = (Return vs, p').

(** ** ingestion.js: job tracking and ingestCSV *)

(** The [status] column of [ingestion_jobs] (its CHECK constraint). *)
Inductive job_status := pending | processing | completed | failed_job.

(** A row of [ingestion_jobs] without its primary key. *)
Record ingestion_job := {
  file_name : jstring;
  status : job_status;
  total_chunks : nat;
  processed_chunks : nat;
  error_message : option jstring;
  started_at : nat;
  completed_at : option nat;
}.

(** The object [createIngestionJob] inserts. *)
Record new_job := {
  new_file_name : jstring;
  new_status : job_status;
  new_total_chunks : nat;
  new_processed_chunks : nat;
}.

(** The [updates] object of [updateIngestionJob]; an absent property is
    [None]. *)
Record job_updates := {
  set_status : job_status;
  set_processed_chunks : nat;
  set_completed_at : option nat;
  set_error_message : option jstring;
}.

(** The requests made on [ingestion_jobs], and the clock:
    - [insert_job j]: [from('ingestion_jobs').insert(j).select().single()],
      whose data is the created row with its id;
    - [update_job u id]: [from('ingestion_jobs').update(u).eq('id', id)];
    - [job_date_now]: [new Date().toISOString()]. *)
Class JobStore (W : Type) := {
  insert_job : new_job -> M W (response (nat * ingestion_job));
  update_job : job_updates -> nat -> M W (response unit);
  job_date_now : W -> nat;
}.

(** A computation whose loops are bounded by fuel: [None] when the fuel
    did not suffice. *)
Definition MF (W A : Type) : Type := W -> option (outcome A * W).

Definition liftF {W A} (m : M W A) : MF W A := fun w => Some (m w).

Definition bindF {W A B} (m : MF W A) (k : A -> MF W B) : MF W B :=
  fun w =>
    match m w with
    | Some (Return a, w') => k a w'
    | Some (Throw e, w') => Some (Throw e, w')
    | None => None
    end.

Definition try_catchF {W A} (m : MF W A) (h : error -> MF W A) : MF W A :=
  fun w =>
    match m w with
    | Some (Return a, w') => Some (Return a, w')
    | Some (Throw e, w') => h e w'
    | None => None
    end.

(** The [options] argument of [ingestCSV]. *)
Record ingest_options := {
  clearExisting : option bool;
  trackJob : option bool;
  option_source : option jstring;
}.

(** What [ingestCSV] returns. *)
Record ingest_result := {
  ingest_success : bool;
  ingest_source : jstring;
  documentsInserted : nat;
  totalChunks : nat;
}.

(** The message of the error [ingestCSV] throws on a file without chunks. *)
Definition no_chunks_message : jstring :=
  lit "No valid chunks created from CSV".

Section Ingestion.
Context {W : Type} `{BulkStore W} `{Embeddings W} `{JobStore W}.

(** [processCSV(filePath)] of csvProcessor.js (file reading, parsing and
    text splitting), as far as [ingestCSV] uses it: the chunks it resolves
    to, or the error it rejects with. *)
Variable processCSV : jstring -> M W (list chunk).

(** [path.basename(filePath)]. *)
Variable basename : jstring -> jstring.

(** [createIngestionJob(fileName, totalChunks)]: the created job, or null
    when the request resolves with an error. *)
Definition createIngestionJob (fileName : jstring) (totalChunks : nat)
    : M W (option (nat * ingestion_job)) :=
  do r <- insert_job {| new_file_name := fileName;
                        new_status := processing;
                        new_total_chunks := totalChunks;
                        new_processed_chunks := 0 |};
  match error_of r with
  | Some _ => ret None
  | None => ret (data r)
  end.

(** [updateIngestionJob(jobId, status, processedChunks, errorMessage)]; the
    outcome of the request is not looked at.  A job's id is a UUID, which
    is never falsy: [None] is the absent id. *)
Definition updateIngestionJob (jobId : option nat) (st : job_status)
    (processedChunks : nat) (errorMessage : option jstring) : M W unit :=
  match jobId with
  | None => ret tt
  | Some id =>
      do now <- (fun w => (Return (job_date_now w), w));
      let updates :=
        {| set_status := st;
           set_processed_chunks := processedChunks;
           set_completed_at :=
             match st with
             | completed | failed_job => Some now
             | _ => None
             end;
           set_error_message :=
             match errorMessage with
             | Some (c :: m) => Some (c :: m)
             | _ => None
             end |} in
      do ' update_job updates id;
      ret tt
  end.

(** The [try] block of [ingestCSV] up to the assignment of [job]: the
    chunks, and the job or null. *)
Definition ingest_begin (filePath fileName : jstring) (track : bool)
    : M W (list chunk * option (nat * ingestion_job)) :=
  do chunks <- processCSV filePath;
  if length chunks =? 0 then throw no_chunks_message
  else if track then
    do job <- createIngestionJob fileName (length chunks);
    ret (chunks, job)
  else ret (chunks, None).

(** The rest of the [try] block, with [job] assigned. *)
Definition ingest_rest (fuel : nat) (chunks : list chunk) (src : jstring)
    (clear : bool) (job : option (nat * ingestion_job))
    : MF W ingest_result :=
  bindF (if clear then liftF (do ' deleteExistingDocuments src; ret tt)
         else liftF (ret tt)) (fun _ =>
  bindF (generateEmbeddings fuel chunks default_batchSize)
    (fun embeddings_list =>
  bindF (insertDocuments fuel chunks embeddings_list src
           default_insert_batchSize) (fun inserted =>
  liftF
    (do ' match job with
          | Some (id, _) => updateIngestionJob (Some id) completed inserted None
          | None => ret tt
          end;
     ret {| ingest_success := true;
            ingest_source := src;
            documentsInserted := inserted;
            totalChunks := length chunks |})))).

(** The [catch] block: the job, if there is one, is marked failed with the
    error's message, and the error is thrown again. *)
Definition ingest_catch (job : option (nat * ingestion_job)) (e : error)
    : M W ingest_result :=
  do ' match job with
       | Some (id, _) => updateIngestionJob (Some id) failed_job 0 (Some e)
       | None => ret tt
       end;
  throw e.

(** [ingestCSV(filePath, options)]; [fuel] bounds the two batch loops. *)
Definition ingestCSV (fuel : nat) (filePath : jstring) (o : ingest_options)
    : MF W ingest_result :=
  let clear := default true (clearExisting o) in
  let track := default true (trackJob o) in
  let fileName := basename filePath in
  let src :=
    match option_source o with
    | Some (c :: s) => c :: s
    | _ => fileName
    end in
  fun w =>
    match ingest_begin filePath fileName track w with
    | (Throw e, w1) => liftF (ingest_catch None e) w1
    | (Return (chunks, job), w1) =>
        try_catchF (ingest_rest fuel chunks src clear job)
          (fun e => liftF (ingest_catch job e)) w1
    end.

End Ingestion.

(** ** The jobs table beside the provider and the store *)

(** The world of an ingestion: the provider, the [ingestion_jobs] table
    keyed by id, and the store (whose clock and fault script the job
    requests share). *)
Abbreviation system P := ((P * gmap nat ingestion_job) * db)%type.

(** The row an insert into [ingestion_jobs] creates; [started_at] defaults
    to [NOW()]. *)
Definition new_job_row (j : new_job) (now : nat) : ingestion_job :=
  {| file_name := new_file_name j;
     status := new_status j;
     total_chunks := new_total_chunks j;
     processed_chunks := new_processed_chunks j;
     error_message := None;
     started_at := now;
     completed_at := None |}.

(** The columns an update of [ingestion_jobs] writes. *)
Definition apply_job_updates (u : job_updates) (j : ingestion_job)
    : ingestion_job :=
  {| file_name := file_name j;
     status := set_status u;
     total_chunks := total_chunks j;
     processed_chunks := set_processed_chunks u;
     error_message :=
       match set_error_message u with
       | Some m => Some m
       | None => error_message j
       end;
     started_at := started_at j;
     completed_at :=
       match set_completed_at u with
       | Some t => Some t
       | None => completed_at j
       end |}.

Definition system_insert_job {P} (j : new_job)
    : M (system P) (response (nat * ingestion_job)) :=
  fun '((p, jobs), w) =>
    let '(f, w1) := arrive w in
    match f with
    | Some e => (Return (failure e), ((p, jobs), w1))
    | None =>
        let id := fresh (dom jobs) in
        let r := new_job_row j (clock w1) in
        (Return {| data := Some (id, r); error_of := None |},
         ((p, <[id := r]> jobs), w1))
    end.

Definition system_update_job {P} (u : job_updates) (id : nat)
    : M (system P) (response unit) :=
  fun '((p, jobs), w) =>
    let '(f, w1) := arrive w in
    match f with
    | Some e => (Return (failure e), ((p, jobs), w1))
    | None =>
        (Return {| data := None; error_of := None |},
         ((p, alter (apply_job_updates u) id jobs), w1))
    end.

#[global] Instance system_jobs {P} : JobStore (system P) := {|
  insert_job := system_insert_job;
  update_job := system_update_job;
  job_date_now s := clock s.2;
|}.

#[global] Instance system_embeddings {P} `{Embeddings P}
    : Embeddings (system P) := {|
  embedDocuments texts := fun '((p, jobs), w) =>
    let '(r, p') := embedDocuments texts p in (r, ((p', jobs), w));
|}.

(** The store after the clearing step of [ingestCSV]: the rows of the
    source are gone when [clearExisting] holds and the request is served. *)
Definition cleared (clear : bool) (src : jstring) (w : db) : db :=
  if clear then set_table (of_other_sources src (table w)) (served w) else w.

(** The job row once [updateIngestionJob] has closed it. *)
Definition closed_job (fileName : jstring) (st : job_status)
    (total processed : nat) (message : option jstring)
    (started finished : nat) : ingestion_job :=
  {| file_name := fileName;
     status := st;
     total_chunks := total;
     processed_chunks := processed;
     error_message := message;
     started_at := started;
     completed_at := Some finished |}.

(** A provider with a quota of requests: it answers every text with the
    empty vector while the quota lasts, and rejects from then on. *)
Definition quota_provider : Embeddings nat :=
  {| embedDocuments texts := fun quota =>
       match quota with
       | 0 => (Throw (lit "Rate limit reached"), 0)
       | S q => (Return (map (fun _ => []) texts), q)
       end |}.

(** * Properties *)

(** The test vectors of [scripts/test-uid-generation.js]. *)
Example test_extract_1 :
  extractPropertyCode (Str (lit "S0002 - 101 Maple")) = Some (lit "S0002").
Proof. reflexivity. Qed.
Example test_extract_2 :
  extractPropertyCode (Str (lit "A001 - Riverside")) = Some (lit "A001").
Proof. reflexivity. Qed.
Example test_uid_1 :
  generateUID (Str (lit "S0020 - Oak Plaza")) (Str (lit "1N"))
  = Some (lit "S0020_1N").
Proof. reflexivity. Qed.
Example test_uid_2 :
  generateUID (Str (lit "P1234 - Downtown")) (Str (lit "A101"))
  = Some (lit "P1234_A101").
Proof. reflexivity. Qed.
Example test_valid :
  map (fun s => isValidUID (Str (lit s)))
      ["S0002_D2"; "S0020_1N"; "INVALID"; "0002_D2"; "S0002-D2"]%string
  = [true; true; false; false; false].
Proof. reflexivity. Qed.

(** ** Strings *)

Lemma span_digit_run ds rest :
  forallb is_digit ds = true ->
  match rest with [] => True | r :: _ => is_digit r = false end ->
  span is_digit (ds ++ rest) = (ds, rest).
Proof.
  induction ds as [|d ds IH]; simpl; intros Hds Hrest.
  - destruct rest as [|r rest']; [reflexivity|]. simpl. now rewrite Hrest.
  - apply andb_prop in Hds as [Hd Hds]. rewrite Hd, IH; auto.
Qed.

Lemma span_spec p s a b :
  span p s = (a, b) ->
  s = a ++ b /\ forallb p a = true /\
  match b with [] => True | r :: _ => p r = false end.
Proof.
  revert a b. induction s as [|c s IH]; simpl; intros a b E.
  - inversion E; subst. auto.
  - destruct (p c) eqn:Hc.
    + destruct (span p s) as [a' b'] eqn:Es. inversion E; subst.
      destruct (IH _ _ eq_refl) as (-> & Ha & Hb). simpl. rewrite Hc. auto.
    + inversion E; subst. simpl. rewrite Hc. auto.
Qed.

Lemma digit_not_lower d : is_digit d = true -> is_lower d = false.
Proof.
  unfold is_digit, is_lower. intros Hd.
  apply andb_prop in Hd as [_ Hd%N.leb_le].
  apply andb_false_intro1, N.leb_gt. lia.
Qed.

Lemma toUpperCase_digits ds :
  forallb is_digit ds = true -> toUpperCase ds = ds.
Proof.
  induction ds as [|d ds IH]; simpl; [reflexivity|]. intros Hds.
  apply andb_prop in Hds as [Hd Hds]. unfold upper_unit.
  rewrite (digit_not_lower _ Hd). f_equal. now apply IH.
Qed.

Lemma upper_unit_letter c : is_letter c = true -> is_upper (upper_unit c) = true.
Proof.
  unfold is_letter, upper_unit. destruct (is_lower c) eqn:Hl.
  - intros _. unfold is_lower in Hl. unfold is_upper.
    apply andb_prop in Hl as [H1%N.leb_le H2%N.leb_le].
    apply andb_true_intro. split; apply N.leb_le; lia.
  - now rewrite orb_false_r.
Qed.

Lemma remove_spaces_app a b :
  remove_spaces (a ++ b) = remove_spaces a ++ remove_spaces b.
Proof. apply filter_app. Qed.

Lemma remove_spaces_rev s : remove_spaces (rev s) = rev (remove_spaces s).
Proof.
  induction s as [|c s IH]; [reflexivity|]. simpl rev.
  rewrite remove_spaces_app, IH. unfold remove_spaces at 2 3.
  rewrite filter_cons, filter_cons, filter_nil.
  destruct (decide (is_space c = false)); simpl; [reflexivity|].
  now rewrite app_nil_r.
Qed.

Lemma remove_spaces_trimStart s : remove_spaces (trimStart s) = remove_spaces s.
Proof.
  induction s as [|c s IH]; [reflexivity|]. simpl.
  destruct (is_space c) eqn:Hc; [|reflexivity].
  rewrite IH. unfold remove_spaces. rewrite filter_cons.
  destruct (decide (is_space c = false)); congruence.
Qed.

(** Trimming first changes nothing once all white space is removed. *)
Lemma remove_spaces_trim s : remove_spaces (trim s) = remove_spaces s.
Proof.
  unfold trim, trimEnd.
  rewrite remove_spaces_rev, remove_spaces_trimStart, remove_spaces_rev.
  rewrite rev_involutive. apply remove_spaces_trimStart.
Qed.

(** ** extractPropertyCode *)

Lemma match_code_prefix_some c ds rest :
  is_letter c = true -> digit_run ds rest ->
  match_code_prefix (c :: ds ++ rest) = Some (c :: ds).
Proof.
  intros Hc (Hne & Hds & Hrest). simpl. rewrite Hc.
  rewrite span_digit_run by assumption.
  destruct ds; [contradiction | reflexivity].
Qed.

Lemma match_code_prefix_inv t m :
  match_code_prefix t = Some m ->
  exists c ds rest,
    t = c :: ds ++ rest /\ is_letter c = true /\ digit_run ds rest /\
    m = c :: ds.
Proof.
  destruct t as [|c t]; simpl; [discriminate|].
  destruct (is_letter c) eqn:Hc; [|discriminate].
  destruct (span is_digit t) as [[|d ds] rest] eqn:Es; [discriminate|].
  intros [= <-]. apply span_spec in Es as (-> & Hds & Hrest).
  exists c, (d :: ds), rest. repeat split; auto; discriminate.
Qed.

Lemma match_code_prefix_none t :
  ~ starts_with_code t -> match_code_prefix t = None.
Proof.
  intros Hno. destruct (match_code_prefix t) as [m|] eqn:E; [|reflexivity].
  exfalso. apply Hno.
  apply match_code_prefix_inv in E as (c & ds & rest & -> & Hc & Hrun & _).
  destruct Hrun as (Hne & Hds & _). destruct ds as [|d ds]; [contradiction|].
  apply andb_prop in Hds as [Hd _]. exists c, d, (ds ++ rest). auto.
Qed.

(** The second pattern only matches where the first one does: the fallback
    after a failed first match never succeeds. *)
Lemma match_code_whole_none t :
  match_code_prefix t = None -> match_code_whole t = None.
Proof.
  destruct t as [|c t]; simpl; [reflexivity|].
  destruct (is_letter c); [|reflexivity].
  destruct (span is_digit t) as [[|d ds] rest]; [reflexivity | discriminate].
Qed.

Lemma trim_nil : trim [] = [].
Proof. reflexivity. Qed.

Lemma extractPropertyCode_Str s :
  extractPropertyCode (Str s) = toUpperCase <$> match_code_prefix (trim s).
Proof.
  unfold extractPropertyCode. destruct s as [|a s]; [reflexivity|].
  simpl truthy. simpl is_string. simpl orb. cbv iota.
  destruct (match_code_prefix (trim (a :: s))) eqn:E; [reflexivity|].
  now rewrite match_code_whole_none.
Qed.

Lemma toUpperCase_code c ds :
  forallb is_digit ds = true -> toUpperCase (c :: ds) = upper_unit c :: ds.
Proof.
  intros Hds.
  change (toUpperCase (c :: ds)) with (upper_unit c :: toUpperCase ds).
  now rewrite (toUpperCase_digits _ Hds).
Qed.

(** What a successful extraction returns is a property code. *)
Lemma extractPropertyCode_is_code v code :
  extractPropertyCode v = Some code -> is_property_code code.
Proof.
  destruct v as [| |b|n|s]; try discriminate.
  - unfold extractPropertyCode; simpl. destruct b; discriminate.
  - unfold extractPropertyCode; simpl. now destruct (negb (n =? 0)%Z).
  - rewrite extractPropertyCode_Str.
    destruct (match_code_prefix (trim s)) as [m|] eqn:E; [|discriminate].
    intros [= <-].
    apply match_code_prefix_inv in E as (c & ds & rest & _ & Hc & Hrun & ->).
    destruct Hrun as (Hne & Hds & _).
    exists (upper_unit c), ds. rewrite toUpperCase_code by assumption.
    repeat split; auto using upper_unit_letter.
Qed.

(** C5. [extractPropertyCode] (derivePropertyCode): when the trimmed input
    starts with a letter followed by its run of digits, the result is that
    prefix in upper case, whatever follows; for an input that is not a
    string, is empty, or whose trimmed form does not start with a letter and
    a digit, the result is null. *)
Theorem extractPropertyCode_contract (v : value) :
  (forall s c ds rest,
      v = Str s -> trim s = c :: ds ++ rest ->
      is_letter c = true -> digit_run ds rest ->
      extractPropertyCode v = Some (toUpperCase (c :: ds))
      /\ toUpperCase (c :: ds) = upper_unit c :: ds)
  /\ (is_string v = false \/ v = Str []
      \/ (exists s, v = Str s /\ ~ starts_with_code (trim s)) ->
      extractPropertyCode v = None).
Proof.
  split.
  - intros s c ds rest -> Ht Hc Hrun. rewrite extractPropertyCode_Str, Ht.
    rewrite match_code_prefix_some by assumption.
    split; [reflexivity|]. apply toUpperCase_code, Hrun.
  - intros [Hv | [-> | (s & -> & Hno)]].
    + destruct v; try discriminate; unfold extractPropertyCode; simpl;
        try reflexivity.
      * now destruct b.
      * now destruct (negb (n =? 0)%Z).
    + reflexivity.
    + rewrite extractPropertyCode_Str. now rewrite match_code_prefix_none.
Qed.

Lemma extractPropertyCode_contract_witness :
  extractPropertyCode (Str (lit "  p1234-x")) = Some (lit "P1234")
  /\ extractPropertyCode (Str (lit "101 Maple")) = None
  /\ extractPropertyCode (Num 7) = None.
Proof.
  split; [|split].
  - refine (proj1 (proj1 (extractPropertyCode_contract (Str (lit "  p1234-x")))
             (lit "  p1234-x") 112%N (lit "1234") (lit "-x")
             eq_refl eq_refl eq_refl _)).
    split; [discriminate | split; reflexivity].
  - apply (proj2 (extractPropertyCode_contract (Str (lit "101 Maple")))).
    right; right. exists (lit "101 Maple"). split; [reflexivity|].
    intros (c & d & rest & E & Hc & _). vm_compute in E.
    injection E as <- _. discriminate Hc.
  - apply (proj2 (extractPropertyCode_contract (Num 7))). now left.
Defined.

(** ** generateUID *)

Lemma generateUID_no_code p u :
  extractPropertyCode p = None -> generateUID p u = None.
Proof. unfold generateUID. now intros ->. Qed.

Lemma generateUID_Str p code unit :
  extractPropertyCode p = Some code -> unit <> [] ->
  generateUID p (Str unit) = Some (code ++ lit "_" ++ remove_spaces unit).
Proof.
  intros Hp Hu. unfold generateUID. rewrite Hp.
  destruct (extractPropertyCode_is_code _ _ Hp) as (c & ds & -> & _).
  destruct unit as [|a unit]; [contradiction|].
  simpl truthy. simpl is_string. simpl negb. simpl orb. cbv iota.
  now rewrite remove_spaces_trim.
Qed.

Lemma generateUID_bad_unit p u :
  is_string u = false \/ u = Str [] -> generateUID p u = None.
Proof.
  intros Hu. unfold generateUID.
  destruct (negb (truthy (of_nullable (extractPropertyCode p))));
    [reflexivity|].
  destruct Hu as [Hu | ->].
  - rewrite Hu. now rewrite orb_true_r.
  - reflexivity.
Qed.

(** Every result of [generateUID] is a property code, an underscore and the
    unit label without its white space. *)
Lemma generateUID_inv p u uid :
  generateUID p u = Some uid ->
  exists code unit,
    extractPropertyCode p = Some code /\ u = Str unit /\ unit <> [] /\
    uid = code ++ lit "_" ++ remove_spaces unit.
Proof.
  intros E. destruct (extractPropertyCode p) as [code|] eqn:Hp.
  - destruct u as [| |b|n|unit];
      try (rewrite generateUID_bad_unit in E by (now left); discriminate).
    destruct unit as [|a unit].
    + rewrite generateUID_bad_unit in E by (now right). discriminate.
    + rewrite (generateUID_Str _ _ _ Hp) in E by discriminate.
      injection E as <-. exists code, (a :: unit). repeat split. discriminate.
  - rewrite generateUID_no_code in E by assumption. discriminate.
Qed.

(** C6. [generateUID] (deriveUID) returns null when no property code can be
    extracted, and when the unit label is not a string or is empty;
    otherwise it returns the code, an underscore and the unit label with
    all white space removed (case untouched).  The two examples of the
    specification are instances. *)
Theorem generateUID_contract :
  (forall p u,
      (extractPropertyCode p = None -> generateUID p u = None)
      /\ (is_string u = false \/ u = Str [] -> generateUID p u = None)
      /\ (forall code unit,
             extractPropertyCode p = Some code -> u = Str unit ->
             unit <> [] ->
             generateUID p u
             = Some (code ++ lit "_" ++ remove_spaces unit)))
  /\ generateUID (Str (lit "S0002 - 101 Maple")) (Str (lit "D2"))
     = Some (lit "S0002_D2")
  /\ generateUID (Str (lit "S0020 - Oak Plaza")) (Str (lit "1 N"))
     = Some (lit "S0020_1N").
Proof.
  split; [|split; reflexivity].
  intros p u. split; [|split].
  - apply generateUID_no_code.
  - apply generateUID_bad_unit.
  - intros code unit Hp -> Hu. now apply generateUID_Str.
Qed.

Lemma generateUID_contract_witness :
  generateUID (Str (lit "S0020 - Oak Plaza")) (Str (lit "  1 S "))
  = Some (lit "S0020" ++ lit "_" ++ remove_spaces (lit "  1 S "))
  /\ generateUID (Str (lit "Oak Plaza")) (Str (lit "1 S")) = None
  /\ generateUID (Str (lit "S0020 - Oak Plaza")) Undefined = None.
Proof.
  split; [|split].
  - apply (proj2 (proj2 (proj1 generateUID_contract
             (Str (lit "S0020 - Oak Plaza")) (Str (lit "  1 S "))))
             (lit "S0020") (lit "  1 S ")); [reflexivity | reflexivity |].
    discriminate.
  - apply (proj1 (proj1 generateUID_contract
             (Str (lit "Oak Plaza")) (Str (lit "1 S")))). reflexivity.
  - apply (proj1 (proj2 (proj1 generateUID_contract
             (Str (lit "S0020 - Oak Plaza")) Undefined))). now left.
Defined.

(** ** isValidUID on derived UIDs *)

Lemma test_uidPattern_derived c ds unit :
  is_upper c = true -> ds <> [] -> forallb is_digit ds = true ->
  test_uidPattern (c :: ds ++ lit "_" ++ unit)
  = match unit with [] => false | _ :: _ => forallb is_alnum unit end.
Proof.
  intros Hc Hne Hds. unfold test_uidPattern.
  unfold is_letter. rewrite Hc. simpl orb. simpl andb.
  change (lit "_" ++ unit) with (95%N :: unit).
  rewrite span_digit_run by (auto; reflexivity).
  destruct ds as [|d ds]; [contradiction|]. reflexivity.
Qed.

Lemma isValidUID_derived code unit :
  is_property_code code ->
  isValidUID (Str (code ++ lit "_" ++ unit))
  = match unit with [] => false | _ :: _ => forallb is_alnum unit end.
Proof.
  intros (c & ds & -> & Hc & Hne & Hds).
  rewrite <- (test_uidPattern_derived c ds unit) by assumption.
  reflexivity.
Qed.

(** The claim as stated fails: punctuation in the unit label, or a unit
    label made of white space only, gives a UID that [isValidUID] rejects. *)
Lemma generateUID_not_always_valid :
  ~ (forall p u uid,
        generateUID p u = Some uid -> isValidUID (Str uid) = true).
Proof.
  intros Hall.
  specialize (Hall (Str (lit "S0002 - 101 Maple")) (Str (lit "D-2"))
                   (lit "S0002_D-2") eq_refl).
  discriminate Hall.
Qed.

Example generateUID_blank_unit :
  generateUID (Str (lit "S0002 - 101 Maple")) (Str (lit " ")) 
  = Some (lit "S0002_")
  /\ isValidUID (Str (lit "S0002_")) = false.
Proof. split; reflexivity. Qed.

(** C4 (amended). Every UID [generateUID] returns is a property code (one
    upper-case letter and digits), an underscore, and the unit label
    without its white space; [isValidUID] accepts it exactly when that
    unit token is non-empty and made of ASCII letters and digits only. *)
Theorem generateUID_valid_iff (p u : value) (uid : jstring) :
  generateUID p u = Some uid ->
  exists code unit,
    u = Str unit /\ is_property_code code
    /\ uid = code ++ lit "_" ++ remove_spaces unit
    /\ (isValidUID (Str uid) = true
        <-> remove_spaces unit <> []
            /\ forallb is_alnum (remove_spaces unit) = true).
Proof.
  intros E.
  apply generateUID_inv in E as (code & unit & Hp & -> & Hu & ->).
  pose proof (extractPropertyCode_is_code _ _ Hp) as Hcode.
  exists code, unit. split; [reflexivity|]. split; [assumption|].
  split; [reflexivity|]. rewrite isValidUID_derived by assumption.
  destruct (remove_spaces unit) as [|a t].
  - split; [discriminate | now intros [Hne _]].
  - split; [intros Hal; split; [discriminate | assumption] | now intros [_ Hal]].
Qed.

Lemma generateUID_valid_iff_witness :
  exists code unit,
    Str (lit "1 N") = Str unit /\ is_property_code code
    /\ lit "S0020_1N" = code ++ lit "_" ++ remove_spaces unit
    /\ (isValidUID (Str (lit "S0020_1N")) = true
        <-> remove_spaces unit <> []
            /\ forallb is_alnum (remove_spaces unit) = true).
Proof.
  exact (generateUID_valid_iff (Str (lit "S0020 - Oak Plaza"))
           (Str (lit "1 N")) (lit "S0020_1N") eq_refl).
Defined.

(** ** addUIDsToRows *)

Lemma generateUID_truthy p u uid :
  generateUID p u = Some uid -> truthy (Str uid) = true.
Proof.
  intros E. apply generateUID_inv in E as (code & unit & Hp & _ & _ & ->).
  destruct (extractPropertyCode_is_code _ _ Hp) as (c & ds & -> & _).
  reflexivity.
Qed.

Lemma annotate_spec o r :
  annotate o r = (with_uid o r, negb (derivation_fails o r)).
Proof.
  unfold annotate, with_uid, derivation_fails.
  destruct (generateUID _ _) as [uid|] eqn:E; [|reflexivity].
  simpl of_nullable. now rewrite (generateUID_truthy _ _ _ E).
Qed.

Lemma annotate_from_spec o rows s f :
  let out := annotate_from o rows s f in
  let K := length (filter (fun r => derivation_fails o r = true) rows) in
  rowsWithUIDs out = map (with_uid o) rows
  /\ failCount out = f + K
  /\ successCount out + failCount out = s + f + length rows.
Proof.
  revert s f. induction rows as [|r rows IH]; intros s f; simpl.
  - repeat split; lia.
  - rewrite annotate_spec, filter_cons.
    destruct (derivation_fails o r) eqn:Hr; simpl negb; cbv iota.
    + destruct (IH s (S f)) as (E1 & E2 & E3). simpl.
      rewrite E1. repeat split; lia.
    + destruct (IH (S s) f) as (E1 & E2 & E3). simpl.
      rewrite E1. repeat split; lia.
Qed.

(** C7. [addUIDsToRows] (annotateRows) over N rows of which K fail UID
    derivation: the output has the N rows in input order, each carrying its
    UID, or null when derivation failed, under the UID column; the failure
    counter ends at K and the success counter at N - K.  The function is
    total: no row makes it raise. *)
Theorem addUIDsToRows_accounting (rows : list row) (o : options) :
  let out := addUIDsToRows rows o in
  let N := length rows in
  let K := length (filter (fun r => derivation_fails o r = true) rows) in
  length (rowsWithUIDs out) = N
  /\ rowsWithUIDs out = map (with_uid o) rows
  /\ (forall i r, rows !! i = Some r -> derivation_fails o r = true ->
        exists r', rowsWithUIDs out !! i = Some r'
                   /\ r' !! uidColumn_of o = Some Null)
  /\ successCount out = N - K
  /\ failCount out = K.
Proof.
  intros out N K.
  destruct (annotate_from_spec o rows 0 0) as (E1 & E2 & E3).
  fold (addUIDsToRows rows o) in E1, E2, E3. fold out in E1, E2, E3.
  fold K in E2. fold N in E3.
  split; [|split; [|split; [|split]]].
  - rewrite E1. apply length_map.
  - exact E1.
  - intros i r Hi Hr. exists (with_uid o r). rewrite E1, list_lookup_fmap, Hi.
    split; [reflexivity|]. unfold with_uid. rewrite lookup_insert_eq.
    unfold derivation_fails in Hr.
    now destruct (generateUID _ _).
  - lia.
  - lia.
Qed.

Lemma addUIDsToRows_accounting_witness :
  let rows : list row :=
    [ {[ lit "Property Name" := Str (lit "S0002 - 101 Maple");
         lit "Unit" := Str (lit "D2") ]};
      {[ lit "Property Name" := Str (lit "101 Maple");
         lit "Unit" := Str (lit "D3") ]} ] in
  exists r', rowsWithUIDs (addUIDsToRows rows no_options) !! 1 = Some r'
             /\ r' !! lit "UID" = Some Null.
Proof.
  intros rows.
  exact (proj1 (proj2 (proj2 (addUIDsToRows_accounting rows no_options)))
           1 {[ lit "Property Name" := Str (lit "101 Maple");
                lit "Unit" := Str (lit "D3") ]} eq_refl eq_refl).
Defined.

(** C8. In the row [addUIDsToRows] emits for an input row, every column
    other than the UID column holds what the input row holds (absent
    columns stay absent); the UID column holds the derived UID or null. *)
Theorem addUIDsToRows_frame (rows : list row) (o : options) (i : nat)
    (r r' : row) (k : jstring) :
  rows !! i = Some r ->
  rowsWithUIDs (addUIDsToRows rows o) !! i = Some r' ->
  (k <> uidColumn_of o -> r' !! k = r !! k)
  /\ r' !! uidColumn_of o
     = Some (of_nullable (generateUID (get r (propertyNameColumn_of o))
                                      (get r (unitColumn_of o)))).
Proof.
  intros Hi Hi'.
  destruct (annotate_from_spec o rows 0 0) as (E & _).
  fold (addUIDsToRows rows o) in E.
  rewrite E, list_lookup_fmap, Hi in Hi'. injection Hi' as <-.
  unfold with_uid. split.
  - intros Hk. now rewrite lookup_insert_ne.
  - apply lookup_insert_eq.
Qed.

(** ** The upsert engine over any store *)

Lemma for_of_app {W A S} (l1 l2 : list A) (body : A -> S -> M W S) s w :
  for_of (l1 ++ l2) body s w
  = match for_of l1 body s w with
    | (Return s1, w1) => for_of l2 body s1 w1
    | (Throw e, w1) => (Throw e, w1)
    end.
Proof.
  revert s w. induction l1 as [|x l1 IH]; intros s w; simpl; [reflexivity|].
  unfold bind. destruct (body x s w) as [[s'|e] w']; [apply IH | reflexivity].
Qed.

Lemma bind_ret_r {W A} (m : M W A) w : bind m ret w = m w.
Proof. unfold bind, ret. now destruct (m w) as [[a|e] w']. Qed.

Section EngineProperties.
Context {W : Type} `{Store W}.

Lemma throw_if_error_fails {A} (m : M W (response A)) {B}
    (k : response A -> M W B) w e w' :
  request_fails m w e w' ->
  bind m (fun r => bind (throw_if_error r) (fun _ => k r)) w = (Throw e, w').
Proof.
  intros [E | r E He]; unfold bind; rewrite E; [reflexivity|].
  unfold throw_if_error. now rewrite He.
Qed.

Lemma throw_if_error_ok {A} (m : M W (response A)) {B}
    (k : response A -> M W B) w r w' :
  m w = (Return r, w') -> error_of r = None ->
  bind m (fun r => bind (throw_if_error r) (fun _ => k r)) w = k r w'.
Proof.
  intros E He. unfold bind at 1. rewrite E. unfold bind, throw_if_error.
  now rewrite He.
Qed.

(** A failing lookup or write makes the [try] block throw. *)
Lemma upsert_try_throws src doc c w e w' :
  unit_fails src doc w e w' -> upsert_try src doc c w = (Throw e, w').
Proof.
  intros [Hu Hf | r w1 id ids Hu Es He Hd Hf | r w1 Hu Es He Hd Hf | Hu Hf];
    unfold upsert_try; rewrite Hu.
  - now apply throw_if_error_fails.
  - rewrite (throw_if_error_ok _ _ _ _ _ Es He), Hd.
    unfold bind at 1. now apply throw_if_error_fails.
  - rewrite (throw_if_error_ok _ _ _ _ _ Es He).
    destruct Hd as [-> | ->]; now apply throw_if_error_fails.
  - now apply throw_if_error_fails.
Qed.

(** Whatever the store does, one iteration returns, and it has
    incremented exactly one counter. *)
Lemma upsert_try_counts src doc c w c' w' :
  upsert_try src doc c w = (Return c', w') ->
  c' = incr_inserted c \/ c' = incr_updated c.
Proof.
  unfold upsert_try, bind, throw_if_error, ret, throw.
  repeat match goal with
         | |- context [match ?x with _ => _ end] => destruct x
         | |- context [if ?x then _ else _] => destruct x
         end;
    intros [= <- <-] || discriminate || idtac; auto.
Qed.

Lemma upsert_one_returns src doc c w :
  exists c' w',
    upsert_one src doc c w = (Return c', w')
    /\ processed c' = S (processed c).
Proof.
  unfold upsert_one, try_catch.
  destruct (upsert_try src doc c w) as [[c'|e] w'] eqn:E.
  - exists c', w'. split; [reflexivity|].
    apply upsert_try_counts in E as [-> | ->]; unfold processed; simpl; lia.
  - exists (incr_failed c), w'. split; [reflexivity|].
    unfold processed; simpl; lia.
Qed.

Lemma upsert_loop_returns src docs c w :
  exists c' w',
    for_of docs (upsert_one src) c w = (Return c', w')
    /\ processed c' = processed c + length docs.
Proof.
  revert c w. induction docs as [|doc docs IH]; intros c w; simpl.
  - exists c, w. split; [reflexivity | lia].
  - destruct (upsert_one_returns src doc c w) as (c1 & w1 & E1 & P1).
    destruct (IH c1 w1) as (c2 & w2 & E2 & P2).
    exists c2, w2. unfold bind. rewrite E1. split; [exact E2 | lia].
Qed.

Lemma upsertDocumentsWithUID_returns chunks embeddings_list src w :
  exists c w',
    upsertDocumentsWithUID chunks embeddings_list src w = (Return c, w')
    /\ processed c = length chunks.
Proof.
  unfold upsertDocumentsWithUID. rewrite bind_ret_r.
  destruct (upsert_loop_returns src
              (imap (to_document embeddings_list src) chunks)
              {| inserted := 0; updated := 0; failed := 0 |} w)
    as (c & w' & E & P).
  exists c, w'. split; [exact E|].
  rewrite length_imap in P. exact P.
Qed.

(** C10. Whatever the store does, the counts [upsertDocumentsWithUID]
    returns add up to the number of units: each iteration increments
    exactly one of [inserted], [updated], [failed]. *)
Theorem upsert_counts_add_up (chunks : list chunk)
    (embeddings_list : list vector) (src : jstring) (w : W) :
  exists c w',
    upsertDocumentsWithUID chunks embeddings_list src w = (Return c, w')
    /\ inserted c + updated c + failed c = length chunks.
Proof. apply upsertDocumentsWithUID_returns. Qed.

(** C3. Whatever the store does, [upsertDocumentsWithUID] returns counts
    and never throws; and when the lookup or the write of one unit fails
    with a store error, that iteration ends normally with only [failed]
    incremented, and the call goes on to run the loop over every
    remaining unit from there, each of which is counted in turn. *)
Theorem upsert_error_contained (chunks : list chunk)
    (embeddings_list : list vector) (src : jstring) (w : W) :
  (exists c w',
      upsertDocumentsWithUID chunks embeddings_list src w = (Return c, w'))
  /\ (forall before doc after c1 w1 e w2,
        imap (to_document embeddings_list src) chunks
        = before ++ doc :: after ->
        for_of before (upsert_one src)
          {| inserted := 0; updated := 0; failed := 0 |} w
        = (Return c1, w1) ->
        unit_fails src doc w1 e w2 ->
        upsert_one src doc c1 w1 = (Return (incr_failed c1), w2)
        /\ upsertDocumentsWithUID chunks embeddings_list src w
           = for_of after (upsert_one src) (incr_failed c1) w2
        /\ exists c w',
             for_of after (upsert_one src) (incr_failed c1) w2 = (Return c, w')
             /\ processed c = processed c1 + 1 + length after).
Proof.
  split.
  - destruct (upsertDocumentsWithUID_returns chunks embeddings_list src w)
      as (c & w' & E & _). now exists c, w'.
  - intros before doc after c1 w1 e w2 Hdocs Hbefore Hfail.
    assert (Hone : upsert_one src doc c1 w1 = (Return (incr_failed c1), w2)).
    { unfold upsert_one, try_catch.
      now rewrite (upsert_try_throws _ _ _ _ _ _ Hfail). }
    split; [exact Hone|]. split.
    + unfold upsertDocumentsWithUID. rewrite bind_ret_r, Hdocs.
      rewrite for_of_app, Hbefore. simpl. unfold bind. now rewrite Hone.
    + destruct (upsert_loop_returns src after (incr_failed c1) w2)
        as (c & w' & E & P).
      exists c, w'. split; [exact E|].
      rewrite P. unfold processed. simpl. lia.
Qed.

End EngineProperties.

(** ** The engine over the [units_vacancy] table *)

Lemma arrive_reliable w :
  reliable w -> arrive w = (None, served w) /\ reliable (served w).
Proof.
  unfold reliable, arrive, served. intros Hr.
  destruct (faults w) as [|f fs]; simpl; [auto|].
  inversion Hr; subst. auto.
Qed.

Lemma db_select_id_ok uid src w :
  reliable w ->
  select_id uid src w
  = (Return {| data := Some (take 1 (map_to_list
                                       (matching uid src (table w))).*1);
               error_of := None |}, served w).
Proof.
  intros Hr. simpl. unfold db_select_id.
  now rewrite (proj1 (arrive_reliable _ Hr)).
Qed.

Lemma db_insert_row_ok doc w :
  reliable w ->
  insert_row doc w
  = (Return {| data := None; error_of := None |},
     set_table (<[fresh (dom (table w)) := new_row doc (S (clock w))]>
                  (table w)) (served w)).
Proof.
  intros Hr. simpl. unfold db_insert_row.
  now rewrite (proj1 (arrive_reliable _ Hr)).
Qed.

Lemma db_update_by_id_ok p id w :
  reliable w ->
  update_by_id p id w
  = (Return {| data := None; error_of := None |},
     set_table (alter (apply_patch p (S (clock w))) id (table w)) (served w)).
Proof.
  intros Hr. simpl. unfold db_update_by_id.
  now rewrite (proj1 (arrive_reliable _ Hr)).
Qed.

Lemma alter_present {A} (f : A -> A) (id : nat) (t : gmap nat A) r :
  t !! id = Some r -> alter f id t = <[id := f r]> t.
Proof.
  intros Hr. apply map_eq. intros j. destruct (decide (id = j)) as [<-|Hne].
  - now rewrite lookup_alter_eq, lookup_insert_eq, Hr.
  - now rewrite lookup_alter_ne, lookup_insert_ne.
Qed.

Lemma fresh_absent {A} (t : gmap nat A) : t !! fresh (dom t) = None.
Proof. apply not_elem_of_dom, is_fresh. Qed.

(** Without a UID the unit is inserted, with no lookup. *)
Lemma upsert_one_no_uid src doc c w :
  reliable w -> truthy (uid doc) = false ->
  upsert_one src doc c w
  = (Return (incr_inserted c),
     set_table (<[fresh (dom (table w)) := new_row doc (S (clock w))]>
                  (table w)) (served w)).
Proof.
  intros Hr Hu. unfold upsert_one, try_catch, upsert_try. rewrite Hu.
  unfold bind. now rewrite db_insert_row_ok.
Qed.

(** With a UID and no stored match the unit is inserted after the lookup. *)
Lemma upsert_one_no_match src doc c w :
  reliable w -> truthy (uid doc) = true ->
  matching (uid doc) src (table w) = ∅ ->
  upsert_one src doc c w
  = (Return (incr_inserted c),
     set_table (<[fresh (dom (table w)) := new_row doc (S (S (clock w)))]>
                  (table w)) (served (served w))).
Proof.
  intros Hr Hu Hm. unfold upsert_one, try_catch, upsert_try. rewrite Hu.
  unfold bind. rewrite db_select_id_ok by assumption.
  rewrite Hm, map_to_list_empty. simpl.
  now rewrite db_insert_row_ok by apply arrive_reliable, Hr.
Qed.

(** With a UID and a stored match, the first row the lookup returns is
    updated in place. *)
Lemma upsert_one_match src doc c w id r rest :
  reliable w -> truthy (uid doc) = true ->
  map_to_list (matching (uid doc) src (table w)) = (id, r) :: rest ->
  upsert_one src doc c w
  = (Return (incr_updated c),
     set_table (<[id := apply_patch (patch_of doc (S (clock w)))
                           (S (S (clock w))) r]> (table w))
               (served (served w))).
Proof.
  intros Hr Hu Hm. unfold upsert_one, try_catch, upsert_try. rewrite Hu.
  unfold bind. rewrite db_select_id_ok by assumption.
  rewrite Hm.
  cbn [fmap list_fmap take fst data error_of throw_if_error ret date_now
       db_store].
  rewrite db_update_by_id_ok by apply arrive_reliable, Hr.
  cbn [data error_of throw_if_error ret served table clock].
  assert (Hid : table w !! id = Some r).
  { assert (Hin : (id, r) ∈ map_to_list (matching (uid doc) src (table w)))
      by (rewrite Hm; left).
    apply elem_of_map_to_list in Hin.
    now apply map_lookup_filter_Some in Hin as [Hin _]. }
  now rewrite (alter_present _ _ _ _ Hid).
Qed.

Lemma matching_first uid src (t : gmap nat units_vacancy) :
  matching uid src t <> ∅ ->
  exists id r rest,
    map_to_list (matching uid src t) = (id, r) :: rest
    /\ t !! id = Some r /\ matches uid src r = true.
Proof.
  intros Hne. destruct (map_to_list (matching uid src t)) as [|[id r] rest] eqn:E.
  - now apply map_to_list_empty_iff in E.
  - exists id, r, rest. split; [reflexivity|].
    assert (Hin : (id, r) ∈ map_to_list (matching uid src t))
      by (rewrite E; left).
    apply elem_of_map_to_list in Hin.
    now apply map_lookup_filter_Some in Hin.
Qed.

(** C2. One unit against a store that serves its requests: without a UID
    it is inserted as a new row and counted as inserted; with a UID that no
    stored row matches for this source it is inserted and counted as
    inserted; with a UID that a stored row matches, the engine sends for
    that row the update carrying the unit's content, embedding, metadata,
    uid and the time it read after the lookup; the row's content,
    embedding, metadata (and uid column) are overwritten, its
    updated-timestamp becomes the store's time when the update was served,
    which is later than the time the run began, no row is added, and the
    unit is counted as updated.  An inserted row is stamped with the
    store's time in the same way. *)
Theorem upsert_decision (src : jstring) (doc : document) (c : counts)
    (w : db) :
  reliable w ->
  (truthy (uid doc) = false \/ matching (uid doc) src (table w) = ∅ ->
   exists id w',
     upsert_one src doc c w = (Return (incr_inserted c), w')
     /\ table w !! id = None
     /\ table w' = <[id := new_row doc (clock w')]> (table w)
     /\ clock w < clock w')
  /\ (truthy (uid doc) = true -> matching (uid doc) src (table w) <> ∅ ->
      exists id r w',
        upsert_one src doc c w = (Return (incr_updated c), w')
        /\ table w !! id = Some r /\ matches (uid doc) src r = true
        /\ update_by_id
             {| new_content := content doc;
                new_embedding := embedding doc;
                new_metadata := doc_metadata doc;
                new_uid := uid doc;
                new_updated_at := date_now (served w) |} id (served w)
           = (Return {| data := None; error_of := None |}, w')
        /\ table w'
           = <[id := {| col_content := content doc;
                        col_embedding := embedding doc;
                        col_metadata := doc_metadata doc;
                        col_source := col_source r;
                        col_chunk_index := col_chunk_index r;
                        col_uid := uid doc;
                        created_at := created_at r;
                        updated_at := clock w' |}]> (table w)
        /\ dom (table w') = dom (table w)
        /\ clock w < clock w').
Proof.
  intros Hr. split.
  - intros Hcase. destruct (truthy (uid doc)) eqn:Hu.
    + destruct Hcase as [Hcase | Hm]; [discriminate|].
      eexists _, _. split; [now apply upsert_one_no_match|].
      split; [apply fresh_absent|]. split; [reflexivity | simpl; lia].
    + eexists _, _. split; [now apply upsert_one_no_uid|].
      split; [apply fresh_absent|]. split; [reflexivity | simpl; lia].
  - intros Hu Hm.
    destruct (matching_first _ _ _ Hm) as (id & r & rest & E & Hid & Hmatch).
    exists id, r. eexists.
    split; [now apply (upsert_one_match _ _ _ _ id r rest)|].
    split; [exact Hid|]. split; [exact Hmatch|].
    split.
    { rewrite db_update_by_id_ok by apply arrive_reliable, Hr.
      cbn [served table clock]. now rewrite (alter_present _ _ _ _ Hid). }
    split; [reflexivity|].
    split; [simpl; apply dom_insert_lookup_L; now exists r | simpl; lia].
Qed.

(** ** Running the same unit twice *)


Lemma reliable_served w : reliable w -> reliable (served w).
Proof. apply arrive_reliable. Qed.

Lemma reliable_set_table t w : reliable w -> reliable (set_table t w).
Proof. auto. Qed.

(** A truthy chunk UID is the value stored under [UID] in the metadata,
    and the store reads it back as the text the lookup compares with. *)
Lemma chunk_uid_truthy ch :
  truthy (chunk_uid ch) = true ->
  exists m,
    metadata ch = Some m /\ m !! lit "UID" = Some (chunk_uid ch)
    /\ json_text (chunk_uid ch) = Some (to_text (chunk_uid ch)).
Proof.
  unfold chunk_uid, or_else, get. destruct (metadata ch) as [m|]; [|discriminate].
  destruct (m !! lit "UID") as [v|] eqn:E; simpl; [|discriminate].
  destruct (truthy v) eqn:Hv; [|discriminate]. intros _.
  exists m. repeat split; [assumption|]. now destruct v.
Qed.









(** ** Embedding requests *)

Lemma take_add_drop {A} (l : list A) i n :
  take (i + n) l = take i l ++ take n (drop i l).
Proof.
  revert l. induction i as [|i IH]; intros l; [reflexivity|].
  destruct l as [|x l]; simpl.
  - now rewrite take_nil.
  - now rewrite IH.
Qed.

Lemma slice_length {A} (l : list A) i n : length (slice i (i + n) l) <= n.
Proof.
  unfold slice. rewrite length_take. lia.
Qed.

Lemma try_catch_rethrow {W A} (m : M W A) w :
  try_catch m (fun e => throw e) w = m w.
Proof. unfold try_catch, throw. now destruct (m w) as [[a|e] w']. Qed.

Section EmbeddingProperties.
Context {W : Type} (E : Embeddings W).

(** The loop of [generateEmbeddings], entered at index [i] after the
    requests of [log] have covered the first [i] texts. *)
Lemma generateEmbeddings_from_spec fuel chunks batchSize :
  0 < batchSize ->
  forall i embeddings_list log w,
    length chunks - i < fuel ->
    Forall (fun c => length (call_texts c) <= batchSize) log ->
    concat (map call_texts log) = take i (map pageContent chunks) ->
    embeddings_list = concat (map reply_vectors log) ->
    exists r log' w',
      @generateEmbeddings_from _ (recording E) fuel chunks batchSize i
        embeddings_list (log, w) = Some (r, (log', w'))
      /\ Forall (fun c => length (call_texts c) <= batchSize) log'
      /\ forall vs, r = Return vs ->
           concat (map call_texts log') = map pageContent chunks
           /\ vs = concat (map reply_vectors log').
Proof.
  intros Hb. induction fuel as [|fuel IH];
    intros i acc log w Hfuel Hlog Hcov Hacc; [lia|].
  simpl. destruct (i <? length chunks) eqn:Hi.
  - apply Nat.ltb_lt in Hi. rewrite try_catch_rethrow.
    set (texts := map pageContent (slice i (i + batchSize) chunks)).
    simpl. destruct (embedDocuments texts w) as [[vs|e] w1] eqn:Ecall.
    + apply IH.
      * lia.
      * apply Forall_app. split; [assumption|]. constructor; [|constructor].
        simpl. unfold texts. rewrite length_map. apply slice_length.
      * rewrite map_app, concat_app, Hcov. simpl. rewrite app_nil_r.
        unfold texts, slice.
        replace (i + batchSize - i) with batchSize by lia.
        rewrite take_add_drop. f_equal.
        now rewrite <- firstn_map, <- skipn_map.
      * rewrite map_app, concat_app, Hacc. simpl. now rewrite app_nil_r.
    + eexists _, _, _. split; [reflexivity|]. split.
      * apply Forall_app. split; [assumption|]. constructor; [|constructor].
        simpl. unfold texts. rewrite length_map. apply slice_length.
      * discriminate.
  - apply Nat.ltb_ge in Hi. exists (Return acc), log, w.
    split; [reflexivity|]. split; [assumption|].
    intros vs [= <-]. split; [|assumption].
    rewrite Hcov. apply take_ge. now rewrite length_map.
Qed.

(** C9 (amended). [generateEmbeddings] with a positive batch size (50 by
    default) returns once the loop has run, hands the provider at most
    [batchSize] texts per request, and when it returns the requests taken
    in order carry exactly the texts of the chunks and the result is the
    answers concatenated in that order.  The embedding step of
    [processAndUpsertCSV] makes a single request carrying every text. *)
Theorem embedding_requests (chunks : list chunk) (batchSize fuel : nat)
    (w : W) :
  0 < batchSize -> length chunks < fuel ->
  (exists r log w',
      @generateEmbeddings _ (recording E) fuel chunks batchSize ([], w)
      = Some (r, (log, w'))
      /\ Forall (fun c => length (call_texts c) <= batchSize) log
      /\ forall embeddings_list, r = Return embeddings_list ->
           concat (map call_texts log) = map pageContent chunks
           /\ embeddings_list = concat (map reply_vectors log))
  /\ (exists r w',
        @processAndUpsertCSV_embed _ (recording E) chunks ([], w)
        = (r, ([{| call_texts := map pageContent chunks;
                   call_reply := r |}], w'))).
Proof.
  intros Hb Hfuel. split.
  - apply generateEmbeddings_from_spec; auto; lia.
  - unfold processAndUpsertCSV_embed. simpl.
    destruct (embedDocuments (map pageContent chunks) w) as [r w'].
    now exists r, w'.
Qed.

End EmbeddingProperties.

Lemma embedding_requests_witness :
  exists r log w',
    @generateEmbeddings _ (recording null_provider) 121
      (map sample_chunk (seq 0 120)) default_batchSize ([], tt)
    = Some (r, (log, w'))
    /\ Forall (fun c => length (call_texts c) <= default_batchSize) log
    /\ forall embeddings_list, r = Return embeddings_list ->
         concat (map call_texts log)
         = map pageContent (map sample_chunk (seq 0 120))
         /\ embeddings_list = concat (map reply_vectors log).
Proof.
  refine (proj1 (embedding_requests null_provider
                   (map sample_chunk (seq 0 120)) default_batchSize 121 tt
                   _ _)).
  - unfold default_batchSize. lia.
  - vm_compute. lia.
Defined.

(** The claim as stated fails on the path of [processAndUpsertCSV]: for a
    sheet of 101 rows its one request carries 101 texts. *)
Lemma embed_step_exceeds_bound :
  ~ (forall chunks,
        Forall (fun c => length (call_texts c) <= 100)
               (embed_step_calls chunks)).
Proof.
  intros Hall. specialize (Hall (map sample_chunk (seq 0 101))).
  apply Forall_inv in Hall. vm_compute in Hall. lia.
Qed.

(** ** Instances on concrete data *)

Lemma addUIDsToRows_frame_witness :
  let r : row := {[ lit "Property Name" := Str (lit "S0020 - Oak Plaza");
                    lit "Unit" := Str (lit "  1 S ");
                    lit "Rent" := Str (lit "1200") ]} in
  let r' : row := <[lit "UID" := Str (lit "S0020_1S")]> r in
  (lit "Rent" <> lit "UID" -> r' !! lit "Rent" = r !! lit "Rent")
  /\ r' !! lit "UID" = Some (Str (lit "S0020_1S")).
Proof.
  intros r r'.
  exact (addUIDsToRows_frame [r] no_options 0 r r' (lit "Rent")
           eq_refl eq_refl).
Defined.

Lemma upsert_decision_witness :
  (exists id w',
      upsert_one (lit "f.csv") sample_doc
        {| inserted := 0; updated := 0; failed := 0 |} empty_db
      = (Return {| inserted := 1; updated := 0; failed := 0 |}, w')
      /\ table empty_db !! id = None
      /\ table w' = <[id := new_row sample_doc (clock w')]> (table empty_db)
      /\ clock empty_db < clock w')
  /\ (exists id r w',
        upsert_one (lit "f.csv") sample_doc
          {| inserted := 0; updated := 0; failed := 0 |} seeded_db
        = (Return {| inserted := 0; updated := 1; failed := 0 |}, w')
        /\ table seeded_db !! id = Some r
        /\ matches (uid sample_doc) (lit "f.csv") r = true
        /\ update_by_id
             {| new_content := content sample_doc;
                new_embedding := embedding sample_doc;
                new_metadata := doc_metadata sample_doc;
                new_uid := uid sample_doc;
                new_updated_at := date_now (served seeded_db) |} id
             (served seeded_db)
           = (Return {| data := None; error_of := None |}, w')
        /\ table w'
           = <[id := {| col_content := content sample_doc;
                        col_embedding := embedding sample_doc;
                        col_metadata := doc_metadata sample_doc;
                        col_source := col_source r;
                        col_chunk_index := col_chunk_index r;
                        col_uid := uid sample_doc;
                        created_at := created_at r;
                        updated_at := clock w' |}]> (table seeded_db)
        /\ dom (table w') = dom (table seeded_db)
        /\ clock seeded_db < clock w').
Proof.
  split.
  - apply (proj1 (upsert_decision (lit "f.csv") sample_doc
                    {| inserted := 0; updated := 0; failed := 0 |} empty_db
                    (List.Forall_nil _))).
    right. apply map_filter_empty.
  - apply (proj2 (upsert_decision (lit "f.csv") sample_doc
                    {| inserted := 0; updated := 0; failed := 0 |} seeded_db
                    (List.Forall_nil _))).
    + reflexivity.
    + intros Hempty. apply (f_equal (fun m => m !! 7)) in Hempty.
      vm_compute in Hempty. discriminate Hempty.
Defined.


(** On the empty store the first run inserts, and the precondition on the
    number of matching rows holds. *)
Example upsert_twice_from_empty :
  size (matching (chunk_uid (sample_chunk 0)) (lit "f.csv") (table empty_db))
  = 0
  /\ (upsertDocumentsWithUID [sample_chunk 0] [] (lit "f.csv") empty_db).1
     = Return {| inserted := 1; updated := 0; failed := 0 |}.
Proof. split; vm_compute; reflexivity. Qed.

Lemma upsert_error_contained_witness :
  let chunks := [sample_chunk 0; sample_chunk 1] in
  let doc0 := to_document [] (lit "f.csv") 0 (sample_chunk 0) in
  let doc1 := to_document [] (lit "f.csv") 1 (sample_chunk 1) in
  upsert_one (lit "f.csv") doc0
    {| inserted := 0; updated := 0; failed := 0 |} failing_db
  = (Return {| inserted := 0; updated := 0; failed := 1 |}, served failing_db)
  /\ upsertDocumentsWithUID chunks [] (lit "f.csv") failing_db
     = for_of [doc1] (upsert_one (lit "f.csv"))
         {| inserted := 0; updated := 0; failed := 1 |} (served failing_db)
  /\ exists c w',
       for_of [doc1] (upsert_one (lit "f.csv"))
         {| inserted := 0; updated := 0; failed := 1 |} (served failing_db)
       = (Return c, w')
       /\ processed c = 2.
Proof.
  intros chunks doc0 doc1.
  refine (proj2 (upsert_error_contained chunks [] (lit "f.csv") failing_db)
            [] doc0 [doc1] {| inserted := 0; updated := 0; failed := 0 |}
            failing_db (lit "connection reset") (served failing_db)
            eq_refl eq_refl _).
  apply lookup_fails; [reflexivity|].
  apply (resolves_with_error _ _ _ _ (failure (lit "connection reset")));
    reflexivity.
Defined.

(** Rows that already match twice stay two: the engine updates one of them
    and removes none. *)
Example upsert_keeps_duplicates :
  let run w := (upsertDocumentsWithUID [sample_chunk 0] [] (lit "f.csv") w).2 in
  size (matching (chunk_uid (sample_chunk 0)) (lit "f.csv")
          (table (run (run duplicated_db)))) = 2.
Proof. vm_compute. reflexivity. Qed.

(** Serial runs alone can leave two rows for one pair: two units whose
    metadata holds the number 0 as UID are inserted with no lookup (0 is
    falsy), and both read back as "0"; the unit with UID "0" then finds two
    matching rows before and after it has been upserted twice. *)
Example upsert_serial_duplicates :
  let run chunks w := (upsertDocumentsWithUID chunks [] (lit "f.csv") w).2 in
  let w0 := run [numbered_chunk; numbered_chunk] empty_db in
  truthy (chunk_uid labelled_chunk) = true
  /\ size (matching (chunk_uid labelled_chunk) (lit "f.csv") (table w0)) = 2
  /\ (upsertDocumentsWithUID [labelled_chunk] [] (lit "f.csv")
        (run [labelled_chunk] w0)).1
     = Return {| inserted := 0; updated := 1; failed := 0 |}
  /\ size (matching (chunk_uid labelled_chunk) (lit "f.csv")
             (table (run [labelled_chunk] (run [labelled_chunk] w0)))) = 2.
Proof. vm_compute. repeat split. Qed.

(** After the failed first unit the second one is still inserted. *)
Example upsert_after_failure :
  (upsertDocumentsWithUID [sample_chunk 0; sample_chunk 1] []
     (lit "f.csv") failing_db).1
  = Return {| inserted := 1; updated := 0; failed := 1 |}.
Proof. vm_compute. reflexivity. Qed.

(** * Further properties *)

(** ** parseUID *)

Lemma split_on_piece sep a b :
  Forall (fun c => c <> sep) a ->
  split_on sep (a ++ sep :: b) = a :: split_on sep b.
Proof.
  induction a as [|c a IH]; intros Ha; simpl.
  - now rewrite N.eqb_refl.
  - inversion Ha as [|? ? Hc Ha']; subst.
    apply N.eqb_neq in Hc. rewrite Hc, IH by assumption. reflexivity.
Qed.

Lemma split_on_last sep a :
  Forall (fun c => c <> sep) a -> split_on sep a = [a].
Proof.
  induction a as [|c a IH]; intros Ha; simpl; [reflexivity|].
  inversion Ha as [|? ? Hc Ha']; subst.
  apply N.eqb_neq in Hc. rewrite Hc, IH by assumption. reflexivity.
Qed.

Lemma alnum_no_underscore s : forallb is_alnum s = true -> no_underscore s.
Proof.
  induction s as [|c s IH]; simpl; intros Hs; constructor.
  - apply andb_prop in Hs as [Hc _]. intros ->. discriminate Hc.
  - apply IH. now apply andb_prop in Hs as [_ Hs].
Qed.

Lemma digits_alnum ds : forallb is_digit ds = true -> forallb is_alnum ds = true.
Proof.
  induction ds as [|d ds IH]; simpl; [reflexivity|]. intros Hds.
  apply andb_prop in Hds as [Hd Hds]. unfold is_alnum at 1.
  rewrite Hd, orb_true_r. now apply IH.
Qed.

Lemma code_no_underscore c ds :
  is_letter c = true -> forallb is_digit ds = true -> no_underscore (c :: ds).
Proof.
  intros Hc Hds. apply alnum_no_underscore. simpl.
  unfold is_alnum at 1. rewrite Hc. simpl. now apply digits_alnum.
Qed.

(** The strings [isValidUID] accepts. *)
Lemma isValidUID_inv v :
  isValidUID v = true ->
  exists c ds unit,
    v = Str (c :: ds ++ lit "_" ++ unit)
    /\ is_letter c = true /\ ds <> [] /\ forallb is_digit ds = true
    /\ unit <> [] /\ forallb is_alnum unit = true.
Proof.
  destruct v as [| |b|n|s]; try discriminate.
  - unfold isValidUID; simpl. now destruct b.
  - unfold isValidUID; simpl. now destruct (negb (n =? 0)%Z).
  - destruct s as [|c s]; [discriminate|].
    unfold isValidUID. simpl truthy. simpl is_string. simpl orb. cbv iota.
    unfold test_uidPattern. destruct (is_letter c) eqn:Hc; [|discriminate].
    destruct (span is_digit s) as [[|d ds] [|u rest]] eqn:Es;
      try discriminate.
    simpl andb. destruct (u =? 95)%N eqn:Hu; [|discriminate].
    apply N.eqb_eq in Hu as ->. destruct rest as [|a rest]; [discriminate|].
    simpl andb. intros Hal.
    apply span_spec in Es as (-> & Hds & _).
    exists c, (d :: ds), (a :: rest). repeat split; auto; discriminate.
Qed.

Lemma parseUID_valid c ds unit :
  is_letter c = true -> ds <> [] -> forallb is_digit ds = true ->
  unit <> [] -> forallb is_alnum unit = true ->
  parseUID (Str (c :: ds ++ lit "_" ++ unit))
  = Some {| propertyCode := Str (c :: ds);
            unitNumber := Str unit;
            parsed_from := Str (c :: ds ++ lit "_" ++ unit) |}.
Proof.
  intros Hc Hne Hds Hu Hal. unfold parseUID.
  assert (Hv : isValidUID (Str (c :: ds ++ lit "_" ++ unit)) = true).
  { unfold isValidUID. simpl truthy. simpl is_string. simpl orb. cbv iota.
    unfold test_uidPattern. rewrite Hc.
    change (lit "_" ++ unit) with (95%N :: unit).
    rewrite span_digit_run by (auto; reflexivity).
    destruct ds as [|d ds]; [contradiction|].
    destruct unit as [|a unit]; [contradiction|]. exact Hal. }
  rewrite Hv. simpl negb. cbv iota.
  change (c :: ds ++ lit "_" ++ unit) with ((c :: ds) ++ 95%N :: unit).
  rewrite split_on_piece by now apply code_no_underscore.
  rewrite split_on_last by now apply alnum_no_underscore.
  reflexivity.
Qed.

(** X1. [parseUID] returns null exactly on what [isValidUID] rejects.  On
    a valid UID it returns the letter-and-digits code in front of the
    underscore and the alphanumeric token behind it, unchanged (the code
    keeps its case); joining the two with an underscore gives the UID
    back. *)
Theorem parseUID_round_trip (v : value) :
  match parseUID v with
  | None => isValidUID v = false
  | Some p =>
      isValidUID v = true
      /\ exists c ds unit,
           propertyCode p = Str (c :: ds) /\ unitNumber p = Str unit
           /\ parsed_from p = v /\ v = Str ((c :: ds) ++ lit "_" ++ unit)
           /\ is_letter c = true /\ ds <> [] /\ forallb is_digit ds = true
           /\ unit <> [] /\ forallb is_alnum unit = true
  end.
Proof.
  destruct (isValidUID v) eqn:Hv.
  - destruct (isValidUID_inv v Hv) as (c & ds & unit & -> & Hc & Hne & Hds & Hu & Hal).
    rewrite parseUID_valid by assumption. split; [reflexivity|].
    exists c, ds, unit. simpl. repeat split; auto.
  - unfold parseUID. now rewrite Hv.
Qed.

Lemma underscore_split_unique a a' b b' :
  no_underscore a -> no_underscore a' ->
  a ++ 95%N :: b = a' ++ 95%N :: b' -> a = a' /\ b = b'.
Proof.
  revert a'. induction a as [|c a IH]; intros [|c' a'] Ha Ha' E; simpl in E.
  - now injection E.
  - injection E as <- _. inversion Ha'; subst. contradiction.
  - injection E as -> _. inversion Ha; subst. contradiction.
  - injection E as <- E. inversion Ha; inversion Ha'; subst.
    destruct (IH a') as [-> ->]; auto.
Qed.

Lemma property_code_no_underscore code :
  is_property_code code -> no_underscore code.
Proof.
  intros (c & ds & -> & Hc & _ & Hds). apply code_no_underscore; [|assumption].
  unfold is_letter. now rewrite Hc.
Qed.

(** X2. Two derivations give the same UID exactly when they extract the
    same property code and their unit labels agree once white space is
    removed: the UID determines the pair (code, unit token) and nothing
    else of the labels. *)
Theorem generateUID_same_uid (p u p' u' : value) (uid uid' : jstring) :
  generateUID p u = Some uid -> generateUID p' u' = Some uid' ->
  uid = uid'
  <-> extractPropertyCode p = extractPropertyCode p'
      /\ exists unit unit',
           u = Str unit /\ u' = Str unit'
           /\ remove_spaces unit = remove_spaces unit'.
Proof.
  intros E E'.
  apply generateUID_inv in E as (code & unit & Hp & -> & _ & ->).
  apply generateUID_inv in E' as (code' & unit' & Hp' & -> & _ & ->).
  rewrite Hp, Hp'. split.
  - intros Huid.
    apply underscore_split_unique in Huid as [-> Ht];
      eauto using property_code_no_underscore, extractPropertyCode_is_code.
    split; [reflexivity|]. now exists unit, unit'.
  - intros ([= ->] & t & t' & [= <-] & [= <-] & ->). reflexivity.
Qed.

Lemma generateUID_same_uid_witness :
  lit "S0020_1N" = lit "S0020_1N"
  <-> extractPropertyCode (Str (lit "S0020 - Oak Plaza"))
      = extractPropertyCode (Str (lit " s0020"))
      /\ exists unit unit',
           Str (lit "1 N") = Str unit /\ Str (lit " 1N ") = Str unit'
           /\ remove_spaces unit = remove_spaces unit'.
Proof.
  exact (generateUID_same_uid (Str (lit "S0020 - Oak Plaza")) (Str (lit "1 N"))
           (Str (lit " s0020")) (Str (lit " 1N "))
           (lit "S0020_1N") (lit "S0020_1N") eq_refl eq_refl).
Defined.

Lemma trimStart_id s :
  match s with [] => True | c :: _ => is_space c = false end ->
  trimStart s = s.
Proof. destruct s as [|c s]; simpl; [reflexivity|]. now intros ->. Qed.

Lemma alnum_not_space c : is_alnum c = true -> is_space c = false.
Proof.
  unfold is_alnum, is_letter, is_upper, is_lower, is_digit, is_space.
  intros Hc.
  repeat (apply orb_prop in Hc as [Hc|Hc]);
    apply andb_prop in Hc as [H1%N.leb_le H2%N.leb_le];
    repeat (apply orb_false_intro);
    try (apply andb_false_intro1, N.leb_gt; lia);
    try (apply andb_false_intro2, N.leb_gt; lia);
    try (apply N.eqb_neq; lia).
Qed.

Lemma remove_spaces_id s :
  Forall (fun c => is_space c = false) s -> remove_spaces s = s.
Proof.
  induction s as [|c s IH]; intros Hs; [reflexivity|].
  inversion Hs; subst. unfold remove_spaces. rewrite filter_cons.
  rewrite decide_True by assumption. f_equal. now apply IH.
Qed.

Lemma remove_spaces_clean s :
  Forall (fun c => is_space c = false) (remove_spaces s).
Proof.
  apply Forall_forall. intros c Hc.
  unfold remove_spaces in Hc. now apply list_elem_of_filter in Hc as [Hc _].
Qed.

Lemma trim_id s : Forall (fun c => is_space c = false) s -> trim s = s.
Proof.
  intros Hs. unfold trim, trimEnd.
  rewrite (trimStart_id s) by (destruct Hs; auto).
  rewrite trimStart_id, rev_involutive; [reflexivity|].
  assert (Hr : Forall (fun c => is_space c = false) (rev s))
    by now apply List.Forall_rev.
  destruct Hr; auto.
Qed.

(** A property code is read back as itself. *)
Lemma extractPropertyCode_code code :
  is_property_code code -> extractPropertyCode (Str code) = Some code.
Proof.
  intros (c & ds & -> & Hc & Hne & Hds).
  assert (Hl : is_letter c = true) by (unfold is_letter; now rewrite Hc).
  rewrite extractPropertyCode_Str, trim_id.
  - rewrite <- (app_nil_r ds) at 1.
    rewrite match_code_prefix_some by (repeat split; auto).
    change (Some (toUpperCase (c :: ds)) = Some (c :: ds)).
    rewrite toUpperCase_code by assumption.
    unfold upper_unit.
    assert (Hlo : is_lower c = false).
    { unfold is_upper in Hc. unfold is_lower.
      apply andb_prop in Hc as [_ H2%N.leb_le].
      apply andb_false_intro1, N.leb_gt. lia. }
    now rewrite Hlo.
  - constructor; [now apply alnum_not_space; unfold is_alnum; rewrite Hl|].
    apply Forall_forall. intros d Hd. apply alnum_not_space.
    unfold is_alnum. rewrite (proj1 (forallb_forall _ _) Hds d).
    + apply orb_true_r.
    + now apply list_elem_of_In.
Qed.

(** X3. Deriving again from the parts of a derived UID: the extracted
    code is accepted as a bare property label and read back as itself;
    with that code and the unit label already stripped of white space the
    same UID comes out, unless the label was white space only, when the
    stripped label is empty and the second derivation returns null (the
    first gave the code followed by a bare underscore). *)
Theorem generateUID_canonical (p : value) (unit uid : jstring) :
  generateUID p (Str unit) = Some uid ->
  exists code,
    extractPropertyCode p = Some code
    /\ extractPropertyCode (Str code) = Some code
    /\ generateUID (Str code) (Str (remove_spaces unit))
       = match remove_spaces unit with
         | [] => None
         | _ :: _ => Some uid
         end
    /\ (remove_spaces unit = [] -> uid = code ++ lit "_").
Proof.
  intros E.
  apply generateUID_inv in E as (code & unit0 & Hp & [= <-] & _ & ->).
  exists code. split; [exact Hp|].
  pose proof (extractPropertyCode_code _ (extractPropertyCode_is_code _ _ Hp))
    as Hcode.
  split; [exact Hcode|].
  destruct (remove_spaces unit) as [|a rest] eqn:Hunit.
  - split; [apply generateUID_bad_unit; now right | reflexivity].
  - split; [|discriminate].
    rewrite (generateUID_Str _ _ _ Hcode) by discriminate.
    rewrite <- Hunit.
    now rewrite (remove_spaces_id _ (remove_spaces_clean unit)).
Qed.

Lemma generateUID_canonical_witness :
  (exists code,
      extractPropertyCode (Str (lit "s0020 - Oak Plaza")) = Some code
      /\ extractPropertyCode (Str code) = Some code
      /\ generateUID (Str code) (Str (remove_spaces (lit " 1 N ")))
         = Some (lit "S0020_1N")
      /\ (remove_spaces (lit " 1 N ") = [] ->
          lit "S0020_1N" = code ++ lit "_"))
  /\ (exists code,
        extractPropertyCode (Str (lit "S0002 - 101 Maple")) = Some code
        /\ extractPropertyCode (Str code) = Some code
        /\ generateUID (Str code) (Str (remove_spaces (lit " "))) = None
        /\ (remove_spaces (lit " ") = [] -> lit "S0002_" = code ++ lit "_")).
Proof.
  split.
  - exact (generateUID_canonical (Str (lit "s0020 - Oak Plaza"))
             (lit " 1 N ") (lit "S0020_1N") eq_refl).
  - exact (generateUID_canonical (Str (lit "S0002 - 101 Maple"))
             (lit " ") (lit "S0002_") eq_refl).
Defined.

(** X4. A derived UID that [isValidUID] accepts is parsed back into the
    extracted property code and the unit label without its white space. *)
Theorem parseUID_generateUID (p u : value) (uid : jstring) :
  generateUID p u = Some uid ->
  isValidUID (Str uid) = true ->
  exists code unit,
    extractPropertyCode p = Some code /\ u = Str unit
    /\ parseUID (Str uid)
       = Some {| propertyCode := Str code;
                 unitNumber := Str (remove_spaces unit);
                 parsed_from := Str uid |}.
Proof.
  intros E Hv.
  apply generateUID_inv in E as (code & unit & Hp & -> & _ & ->).
  pose proof (extractPropertyCode_is_code _ _ Hp) as Hcode.
  rewrite isValidUID_derived in Hv by assumption.
  destruct Hcode as (c & ds & -> & Hc & Hne & Hds).
  exists (c :: ds), unit. split; [exact Hp|]. split; [reflexivity|].
  apply parseUID_valid; auto.
  - unfold is_letter. now rewrite Hc.
  - now destruct (remove_spaces unit).
  - now destruct (remove_spaces unit).
Qed.

Lemma parseUID_generateUID_witness :
  exists code unit,
    extractPropertyCode (Str (lit "S0020 - Oak Plaza")) = Some code
    /\ Str (lit "1 N") = Str unit
    /\ parseUID (Str (lit "S0020_1N"))
       = Some {| propertyCode := Str code;
                 unitNumber := Str (remove_spaces unit);
                 parsed_from := Str (lit "S0020_1N") |}.
Proof.
  exact (parseUID_generateUID (Str (lit "S0020 - Oak Plaza"))
           (Str (lit "1 N")) (lit "S0020_1N") eq_refl eq_refl).
Defined.

(** ** cleanText *)

Lemma collapse_spaces_from_units b s :
  Forall (fun c => c = 32%N \/ (c ∈ s /\ is_space c = false))
         (collapse_spaces_from b s).
Proof.
  revert b. induction s as [|c s IH]; intros b; simpl; [constructor|].
  assert (Hw : forall b',
             Forall (fun x => x = 32%N \/ (x ∈ c :: s /\ is_space x = false))
                    (collapse_spaces_from b' s)).
  { intros b'. eapply Forall_impl; [apply IH|].
    intros x [->|[Hx Hs]]; [now left | right; split; [now right | exact Hs]]. }
  destruct (is_space c) eqn:Hc.
  - destruct b; [apply Hw|]. constructor; [now left | apply Hw].
  - constructor; [right; split; [left | exact Hc] | apply Hw].
Qed.

Lemma trimStart_suffix s :
  exists w, s = w ++ trimStart s
            /\ match trimStart s with
               | [] => True
               | c :: _ => is_space c = false
               end.
Proof.
  induction s as [|c s (w & E & H)]; simpl.
  - now exists [].
  - destruct (is_space c) eqn:Hc.
    + exists (c :: w). simpl. now rewrite <- E.
    + exists []. simpl. now rewrite Hc.
Qed.

Lemma trimEnd_prefix s : exists w, s = trimEnd s ++ w.
Proof.
  unfold trimEnd. destruct (trimStart_suffix (rev s)) as (w & E & _).
  exists (rev w). rewrite <- rev_app_distr, <- E. now rewrite rev_involutive.
Qed.

Lemma trim_sublist s : exists a b, s = a ++ trim s ++ b.
Proof.
  unfold trim. destruct (trimStart_suffix s) as (a & E & _).
  destruct (trimEnd_prefix (trimStart s)) as (b & E').
  exists a, b. now rewrite <- E', <- E.
Qed.

Lemma Forall_trim (P : N -> Prop) s : Forall P s -> Forall P (trim s).
Proof.
  intros Hs. destruct (trim_sublist s) as (a & b & E). rewrite E in Hs.
  apply Forall_app in Hs as [_ Hs]. now apply Forall_app in Hs as [Hs _].
Qed.

Lemma remove_controls_id s :
  Forall (fun c => is_control c = false) s -> remove_controls s = s.
Proof.
  induction s as [|c s IH]; intros Hs; [reflexivity|].
  inversion Hs; subst. unfold remove_controls. rewrite filter_cons.
  rewrite decide_True by assumption. f_equal. now apply IH.
Qed.

Lemma replace_crlf_id s : Forall (fun c => c <> 13%N) s -> replace_crlf s = s.
Proof.
  induction s as [|c s IH]; intros Hs; [reflexivity|].
  inversion Hs as [|? ? Hc Hs']; subst. simpl.
  destruct s as [|d s]; [reflexivity|].
  apply N.eqb_neq in Hc. rewrite Hc. simpl andb. cbv iota.
  f_equal. now apply IH.
Qed.

Lemma replace_cr_id s : Forall (fun c => c <> 13%N) s -> replace_cr s = s.
Proof.
  induction s as [|c s IH]; intros Hs; [reflexivity|].
  inversion Hs as [|? ? Hc Hs']; subst. simpl.
  apply N.eqb_neq in Hc. rewrite Hc. f_equal. now apply IH.
Qed.

Lemma squeeze_newlines_id s :
  Forall (fun c => c <> 10%N) s -> squeeze_newlines s = s.
Proof.
  unfold squeeze_newlines.
  induction s as [|c s IH]; intros Hs; [reflexivity|].
  inversion Hs as [|? ? Hc Hs']; subst. simpl.
  apply N.eqb_neq in Hc. rewrite Hc. simpl. f_equal. now apply IH.
Qed.

Lemma not_control_not_break c :
  is_control c = false -> c <> 13%N /\ c <> 10%N.
Proof. intros Hc. split; intros ->; discriminate Hc. Qed.

(** What [cleanText] computes on a non-empty string once the three
    line-break passes are known to do nothing. *)
Lemma cleanText_Str s :
  cleanText (Str s) = remove_controls (trim (collapse_spaces s)).
Proof.
  destruct s as [|a s]; [reflexivity|].
  unfold cleanText. simpl truthy. simpl is_string. simpl orb. cbv iota zeta.
  set (t := remove_controls (trim (collapse_spaces (a :: s)))).
  assert (Ht : Forall (fun c => is_control c = false) t).
  { apply Forall_forall. intros c Hc. unfold t, remove_controls in Hc.
    now apply list_elem_of_filter in Hc as [Hc _]. }
  assert (H13 : Forall (fun c => c <> 13%N) t)
    by (eapply Forall_impl; [exact Ht | intros c Hc; apply not_control_not_break, Hc]).
  assert (H10 : Forall (fun c => c <> 10%N) t)
    by (eapply Forall_impl; [exact Ht | intros c Hc; apply not_control_not_break, Hc]).
  rewrite replace_crlf_id, replace_cr_id, squeeze_newlines_id by assumption.
  reflexivity.
Qed.

Lemma cleanText_chars (text : value) :
  Forall (fun c => is_control c = false /\ (is_space c = true -> c = 32%N))
         (cleanText text).
Proof.
  destruct text as [| |b|n|s]; try constructor.
  - unfold cleanText; simpl. destruct b; constructor.
  - unfold cleanText; simpl. destruct (negb (n =? 0)%Z); constructor.
  - rewrite cleanText_Str.
    apply Forall_forall. intros c Hc. unfold remove_controls in Hc.
    apply list_elem_of_filter in Hc as [Hctl Hc]. split; [exact Hctl|].
    assert (Hu : Forall (fun x => x = 32%N
                                  \/ (x ∈ s /\ is_space x = false))
                        (trim (collapse_spaces s)))
      by apply Forall_trim, collapse_spaces_from_units.
    destruct (proj1 (Forall_forall _ _) Hu c Hc) as [-> | [_ Hs]];
      [reflexivity | congruence].
Qed.

(** X5. The text [cleanText] returns holds no control character (so no
    tab, line feed or carriage return) and no white space other than the
    plain space: the three line-break replacements that end the function
    never change anything.  For an input that is not a non-empty string
    the result is the empty string. *)
Theorem cleanText_units (text : value) :
  Forall (fun c => is_control c = false /\ (is_space c = true -> c = 32%N))
         (cleanText text)
  /\ match text with
     | Str s => cleanText text = remove_controls (trim (collapse_spaces s))
     | _ => cleanText text = []
     end.
Proof.
  split; [apply cleanText_chars|].
  destruct text as [| |b|n|s]; try reflexivity.
  - unfold cleanText; simpl. now destruct b.
  - unfold cleanText; simpl. now destruct (negb (n =? 0)%Z).
  - apply cleanText_Str.
Qed.

Lemma tidy_collapse_spaces_from b s :
  tidy_from b (collapse_spaces_from b s) = true.
Proof.
  revert b. induction s as [|c s IH]; intros b; simpl; [reflexivity|].
  destruct (is_space c) eqn:Hc.
  - destruct b; [apply IH|]. simpl. apply IH.
  - simpl. rewrite Hc. apply IH.
Qed.

Lemma collapse_spaces_from_tidy b s :
  tidy_from b s = true -> collapse_spaces_from b s = s.
Proof.
  revert b. induction s as [|c s IH]; intros b; simpl; [reflexivity|].
  destruct (is_space c) eqn:Hc.
  - intros Ht. apply andb_prop in Ht as [Ht Hs].
    apply andb_prop in Ht as [Hc32%N.eqb_eq Hb]. subst c.
    destruct b; [discriminate|]. f_equal. now apply IH.
  - intros Ht. f_equal. now apply IH.
Qed.

Lemma tidy_from_prefix b a w : tidy_from b (a ++ w) = true -> tidy_from b a = true.
Proof.
  revert b. induction a as [|c a IH]; intros b; simpl; [reflexivity|].
  destruct (is_space c).
  - intros Ht. apply andb_prop in Ht as [Ht Hs]. rewrite Ht. now apply IH.
  - apply IH.
Qed.

Lemma tidy_from_weaken b s : tidy_from b s = true -> tidy_from false s = true.
Proof.
  destruct s as [|c s]; simpl; [reflexivity|].
  destruct (is_space c); [|trivial].
  intros Ht. apply andb_prop in Ht as [Ht Hs].
  apply andb_prop in Ht as [Hc _]. now rewrite Hc, Hs.
Qed.

Lemma tidy_from_suffix b w t :
  tidy_from b (w ++ t) = true -> tidy_from false t = true.
Proof.
  revert b. induction w as [|c w IH]; intros b; simpl.
  - apply tidy_from_weaken.
  - destruct (is_space c).
    + intros Ht. apply andb_prop in Ht as [_ Hs]. now apply IH in Hs.
    + apply IH.
Qed.

Lemma tidy_trim s : tidy_from false s = true -> tidy_from false (trim s) = true.
Proof.
  intros Ht. destruct (trim_sublist s) as (a & b & E). rewrite E in Ht.
  apply tidy_from_suffix in Ht. now apply tidy_from_prefix in Ht.
Qed.

Lemma trimStart_idemp s : trimStart (trimStart s) = trimStart s.
Proof.
  destruct (trimStart_suffix s) as (w & _ & H). now apply trimStart_id.
Qed.

Lemma trim_idemp s : trim (trim s) = trim s.
Proof.
  unfold trim at 1.
  assert (Hs : trimStart (trim s) = trim s).
  { apply trimStart_id. unfold trim.
    destruct (trimStart_suffix s) as (w & _ & H).
    destruct (trimEnd_prefix (trimStart s)) as (w' & E).
    destruct (trimEnd (trimStart s)) as [|c n]; [exact I|].
    rewrite E in H. exact H. }
  rewrite Hs. unfold trim, trimEnd.
  now rewrite rev_involutive, trimStart_idemp.
Qed.

Lemma collapse_spaces_no_control s :
  controls_are_spaces s ->
  Forall (fun c => is_control c = false) (collapse_spaces s).
Proof.
  intros Hs. eapply Forall_impl; [apply collapse_spaces_from_units|].
  intros c [-> | [Hin Hsp]]; [reflexivity|].
  pose proof (proj1 (Forall_forall _ _) Hs c Hin) as Hc.
  simpl in Hc. destruct (is_control c); [|reflexivity].
  rewrite (Hc eq_refl) in Hsp. discriminate.
Qed.

(** On a text whose control characters are all white space, [cleanText] is
    trimming after collapsing, and cleaning its result again changes
    nothing. *)
Lemma cleanText_idempotent_on s :
  controls_are_spaces s ->
  cleanText (Str s) = trim (collapse_spaces s)
  /\ cleanText (Str (cleanText (Str s))) = cleanText (Str s).
Proof.
  intros Hs.
  assert (Hn : Forall (fun c => is_control c = false)
                      (trim (collapse_spaces s)))
    by now apply Forall_trim, collapse_spaces_no_control.
  assert (E : cleanText (Str s) = trim (collapse_spaces s))
    by (rewrite cleanText_Str; now apply remove_controls_id).
  split; [exact E|]. rewrite E, cleanText_Str.
  unfold collapse_spaces at 1.
  rewrite collapse_spaces_from_tidy
    by apply tidy_trim, tidy_collapse_spaces_from.
  rewrite trim_idemp. now apply remove_controls_id.
Qed.

(** X6. Cleaning twice reaches a fixed point: a third pass returns what the
    second did.  One pass is already a fixed point when every control
    character of the input is a white-space character; otherwise deleting
    a control character can leave a leading, trailing or doubled space that
    only the next pass removes. *)
Theorem cleanText_fixed_point (text : value) :
  cleanText (Str (cleanText (Str (cleanText text))))
  = cleanText (Str (cleanText text))
  /\ (forall s, text = Str s -> controls_are_spaces s ->
        cleanText (Str (cleanText text)) = cleanText text).
Proof.
  split.
  - apply cleanText_idempotent_on.
    eapply Forall_impl; [apply (cleanText_chars text)|].
    intros c [Hc _] Hc'. congruence.
  - intros s -> Hs. now apply cleanText_idempotent_on.
Qed.

Lemma cleanText_fixed_point_witness :
  cleanText (Str (cleanText (Str (lit "  101   Maple  "))))
  = cleanText (Str (lit "  101   Maple  ")).
Proof.
  refine (proj2 (cleanText_fixed_point (Str (lit "  101   Maple  ")))
            (lit "  101   Maple  ") eq_refl _).
  repeat constructor; discriminate.
Defined.

(** A NUL in front of a space: the first pass leaves the space in front,
    the second removes it. *)
Example cleanText_second_pass :
  cleanText (Str [0; 32; 97]%N) = [32; 97]%N
  /\ cleanText (Str [32; 97]%N) = [97]%N.
Proof. split; reflexivity. Qed.

(** ** The engine over the table, whatever requests fail *)

Lemma db_select_id_cases uid src (w : db) :
  (exists e, select_id uid src w = (Return (failure e), served w))
  \/ select_id uid src w
     = (Return {| data := Some (take 1 (map_to_list
                                          (matching uid src (table w))).*1);
                  error_of := None |}, served w).
Proof.
  simpl. unfold db_select_id, arrive.
  destruct (faults w) as [|[e|] fs]; eauto.
Qed.

Lemma db_insert_row_cases doc (w : db) :
  (exists e, insert_row doc w = (Return (failure e), served w))
  \/ insert_row doc w
     = (Return {| data := None; error_of := None |},
        set_table (<[fresh (dom (table w)) := new_row doc (S (clock w))]>
                     (table w)) (served w)).
Proof.
  simpl. unfold db_insert_row, arrive.
  destruct (faults w) as [|[e|] fs]; eauto.
Qed.

Lemma db_update_by_id_cases p id (w : db) :
  (exists e, update_by_id p id w = (Return (failure e), served w))
  \/ update_by_id p id w
     = (Return {| data := None; error_of := None |},
        set_table (alter (apply_patch p (S (clock w))) id (table w))
                  (served w)).
Proof.
  simpl. unfold db_update_by_id, arrive.
  destruct (faults w) as [|[e|] fs]; eauto.
Qed.

(** One iteration over the table: the unit is counted as failed and the
    table is as before, or a row is added under a new id, or a matching row
    is overwritten in place. *)
Lemma upsert_one_db src doc c (w : db) :
  exists c' w',
    upsert_one src doc c w = (Return c', w')
    /\ ((c' = incr_failed c /\ table w' = table w)
        \/ (c' = incr_inserted c
            /\ (truthy (uid doc) = true -> matching (uid doc) src (table w) = ∅)
            /\ exists now,
                 table w'
                 = <[fresh (dom (table w)) := new_row doc now]> (table w))
        \/ (c' = incr_updated c /\ truthy (uid doc) = true
            /\ exists id r now0 now,
                 table w !! id = Some r /\ matches (uid doc) src r = true
                 /\ table w'
                    = <[id := apply_patch (patch_of doc now0) now r]>
                        (table w))).
Proof.
  unfold upsert_one, try_catch, upsert_try.
  destruct (truthy (uid doc)) eqn:Hu.
  - unfold bind at 1.
    destruct (db_select_id_cases (uid doc) src w) as [[e E] | E]; rewrite E.
    + eexists _, _. split; [reflexivity|]. left. auto.
    + cbn [bind throw_if_error error_of data ret].
      destruct (map_to_list (matching (uid doc) src (table w)))
        as [|[id r] rest] eqn:Em.
      * apply map_to_list_empty_iff in Em.
        cbn [fmap list_fmap take]. unfold bind at 1.
        destruct (db_insert_row_cases doc (served w)) as [[e E'] | E'];
          rewrite E'.
        -- eexists _, _. split; [reflexivity|]. left. auto.
        -- eexists _, _. split; [reflexivity|]. right; left.
           split; [reflexivity|]. split; [auto|]. eexists. reflexivity.
      * assert (Hin : (id, r) ∈ map_to_list (matching (uid doc) src (table w)))
          by (rewrite Em; left).
        apply elem_of_map_to_list, map_lookup_filter_Some in Hin as [Hid Hm].
        cbn [fmap list_fmap take fst date_now db_store]. unfold bind at 1 2.
        destruct (db_update_by_id_cases (patch_of doc (clock (served w))) id
                    (served w)) as [[e E'] | E']; rewrite E'.
        -- eexists _, _. split; [reflexivity|]. left. auto.
        -- eexists _, _. split; [reflexivity|]. right; right.
           split; [reflexivity|]. split; [reflexivity|].
           exists id, r. eexists _, _. split; [exact Hid|].
           split; [exact Hm|]. cbn [table set_table served].
           now rewrite (alter_present _ _ _ _ Hid).
  - unfold bind at 1.
    destruct (db_insert_row_cases doc w) as [[e E'] | E']; rewrite E'.
    + eexists _, _. split; [reflexivity|]. left. auto.
    + eexists _, _. split; [reflexivity|]. right; left.
      split; [reflexivity|]. split; [discriminate|]. eexists. reflexivity.
Qed.

Lemma kept_refl src t : kept src t t.
Proof. intros id r Hr. exists r. auto. Qed.

Lemma kept_trans src t1 t2 t3 :
  kept src t1 t2 -> kept src t2 t3 -> kept src t1 t3.
Proof.
  intros H12 H23 id r Hr.
  destruct (H12 id r Hr) as (r2 & Hr2 & Es & Ei & Ec & Ho).
  destruct (H23 id r2 Hr2) as (r3 & Hr3 & Es' & Ei' & Ec' & Ho').
  exists r3. repeat split; try congruence.
  intros Hne. rewrite Ho' by congruence. now apply Ho.
Qed.

Lemma kept_insert_new src (t : gmap nat units_vacancy) id r :
  t !! id = None -> kept src t (<[id := r]> t).
Proof.
  intros Hid j rj Hj. exists rj. rewrite lookup_insert_ne by congruence. auto.
Qed.

Lemma matches_source uid src r : matches uid src r = true -> col_source r = src.
Proof.
  unfold matches. intros Hm. apply andb_prop in Hm as [_ Hs].
  now apply bool_decide_eq_true in Hs.
Qed.

Lemma kept_update src (t : gmap nat units_vacancy) id r p now uid :
  t !! id = Some r -> matches uid src r = true ->
  kept src t (<[id := apply_patch p now r]> t).
Proof.
  intros Hid Hm j rj Hj. destruct (decide (id = j)) as [<-|Hne].
  - rewrite Hid in Hj. injection Hj as <-. exists (apply_patch p now r).
    rewrite lookup_insert_eq. repeat split.
    intros Hs. now apply matches_source in Hm.
  - exists rj. rewrite lookup_insert_ne by assumption. auto.
Qed.

Lemma upsert_loop_db src docs c (w : db) :
  exists c' w',
    for_of docs (upsert_one src) c w = (Return c', w')
    /\ size (table w') + inserted c = size (table w) + inserted c'
    /\ kept src (table w) (table w').
Proof.
  revert c w. induction docs as [|doc docs IH]; intros c w; simpl.
  - exists c, w. split; [reflexivity|]. split; [lia | apply kept_refl].
  - destruct (upsert_one_db src doc c w) as (c1 & w1 & E1 & Hcase).
    destruct (IH c1 w1) as (c2 & w2 & E2 & S2 & K2).
    exists c2, w2. unfold bind. rewrite E1. split; [exact E2|].
    destruct Hcase as [[-> Et] | [(-> & _ & now & Et) | (-> & _ & id & r & n0 & n & Hid & Hm & Et)]].
    + rewrite Et in *. simpl in S2. split; [lia | exact K2].
    + assert (Hf : table w !! fresh (dom (table w)) = None)
        by apply fresh_absent.
      rewrite Et in S2, K2. rewrite map_size_insert_None in S2 by exact Hf.
      simpl in S2. split; [lia|].
      exact (kept_trans _ _ _ _ (kept_insert_new src _ _ _ Hf) K2).
    + rewrite Et in S2, K2.
      rewrite map_size_insert_Some in S2 by (now exists r).
      simpl in S2. split; [lia|].
      exact (kept_trans _ _ _ _ (kept_update src _ _ _ _ _ _ Hid Hm) K2).
Qed.

(** X7. Whatever requests the store fails, a call of
    [upsertDocumentsWithUID] makes the table grow by exactly the number of
    units it reports as inserted; it removes no row; every row that was
    there keeps its source, chunk index and creation time; and the rows of
    other sources are left exactly as they were. *)
Theorem upsert_table_effect (chunks : list chunk)
    (embeddings_list : list vector) (src : jstring) (w : db) :
  exists c w',
    upsertDocumentsWithUID chunks embeddings_list src w = (Return c, w')
    /\ size (table w') = size (table w) + inserted c
    /\ kept src (table w) (table w').
Proof.
  unfold upsertDocumentsWithUID. rewrite bind_ret_r.
  destruct (upsert_loop_db src (imap (to_document embeddings_list src) chunks)
              {| inserted := 0; updated := 0; failed := 0 |} w)
    as (c & w' & E & Hs & Hk).
  exists c, w'. split; [exact E|]. simpl in Hs. split; [lia | exact Hk].
Qed.

(** ** Running a batch again *)

Lemma has_match_matching uid src (t : gmap nat units_vacancy) :
  has_match uid src t <-> matching uid src t <> ∅.
Proof.
  split.
  - intros (id & r & Hid & Hm) Hempty.
    assert (Hin : matching uid src t !! id = Some r)
      by now apply map_lookup_filter_Some.
    rewrite Hempty in Hin. discriminate.
  - intros Hne. apply map_choose in Hne as (id & r & Hin).
    apply map_lookup_filter_Some in Hin as [Hid Hm]. now exists id, r.
Qed.

Lemma coherent_to_document embeddings_list src idx ch :
  coherent src (to_document embeddings_list src idx ch).
Proof.
  split; [reflexivity|]. simpl. intros Hu.
  destruct (chunk_uid_truthy _ Hu) as (m & -> & -> & Ht). exact Ht.
Qed.

Lemma coherent_stored_text src doc :
  coherent src doc -> truthy (uid doc) = true ->
  forall r, col_metadata r = doc_metadata doc ->
            stored_uid_text r = Some (to_text (uid doc)).
Proof.
  intros [_ Hc] Hu r Hr. specialize (Hc Hu). unfold stored_uid_text.
  rewrite Hr. destruct (doc_metadata doc) as [m|]; [|contradiction].
  destruct (m !! lit "UID"); [exact Hc | contradiction].
Qed.

Lemma coherent_new_row src doc now :
  coherent src doc -> truthy (uid doc) = true ->
  matches (uid doc) src (new_row doc now) = true.
Proof.
  intros Hc Hu. unfold matches.
  rewrite (coherent_stored_text _ _ Hc Hu) by reflexivity.
  destruct Hc as [Hs _]. simpl. rewrite Hs.
  now rewrite !bool_decide_eq_true_2.
Qed.

(** Overwriting a row that matches the document leaves it matching
    whatever it matched. *)
Lemma coherent_patch src doc n0 now r :
  coherent src doc -> truthy (uid doc) = true ->
  matches (uid doc) src r = true ->
  forall u s, matches u s (apply_patch (patch_of doc n0) now r)
              = matches u s r.
Proof.
  intros Hc Hu Hm u s. unfold matches in *.
  apply andb_prop in Hm as [Ht _]. apply bool_decide_eq_true in Ht.
  rewrite (coherent_stored_text _ _ Hc Hu (apply_patch _ _ _)) by reflexivity.
  now rewrite Ht.
Qed.

Lemma has_match_insert_new u s (t : gmap nat units_vacancy) id r :
  t !! id = None -> has_match u s t -> has_match u s (<[id := r]> t).
Proof.
  intros Hid (j & rj & Hj & Hm). exists j, rj.
  rewrite lookup_insert_ne by congruence. auto.
Qed.

(** One iteration on a store that serves its requests. *)
Lemma upsert_one_reliable src doc c (w : db) :
  reliable w -> coherent src doc ->
  exists c' w',
    upsert_one src doc c w = (Return c', w')
    /\ reliable w'
    /\ (forall u s, has_match u s (table w) -> has_match u s (table w'))
    /\ (truthy (uid doc) = true -> has_match (uid doc) src (table w'))
    /\ failed c' = failed c
    /\ ((truthy (uid doc) = true /\ has_match (uid doc) src (table w)
         /\ c' = incr_updated c)
        \/ (~ (truthy (uid doc) = true /\ has_match (uid doc) src (table w))
            /\ c' = incr_inserted c)).
Proof.
  intros Hr Hc. destruct (truthy (uid doc)) eqn:Hu.
  - destruct (map_to_list (matching (uid doc) src (table w)))
      as [|[id r] rest] eqn:Em.
    + apply map_to_list_empty_iff in Em.
      eexists _, _. split; [now apply upsert_one_no_match|].
      split; [now apply reliable_set_table, reliable_served, reliable_served|].
      simpl table. split; [|split; [|split]].
      * intros u s. apply has_match_insert_new, fresh_absent.
      * intros _. eexists _, _. split; [apply lookup_insert_eq|].
        now apply (coherent_new_row src).
      * reflexivity.
      * right. split; [|reflexivity]. intros [_ Hm].
        now apply has_match_matching in Hm.
    + assert (Hin : (id, r) ∈ map_to_list (matching (uid doc) src (table w)))
        by (rewrite Em; left).
      apply elem_of_map_to_list, map_lookup_filter_Some in Hin as [Hid Hm].
      simpl in Hm.
      eexists _, _. split; [now apply (upsert_one_match _ _ _ _ id r rest)|].
      split; [now apply reliable_set_table, reliable_served, reliable_served|].
      simpl table. split; [|split; [|split]].
      * intros u s (j & rj & Hj & Hmj). destruct (decide (id = j)) as [<-|Hne].
        -- rewrite Hid in Hj. injection Hj as <-.
           eexists id, _. split; [apply lookup_insert_eq|].
           now rewrite (coherent_patch src).
        -- exists j, rj. now rewrite lookup_insert_ne.
      * intros _. eexists id, _. split; [apply lookup_insert_eq|].
        now rewrite (coherent_patch src).
      * reflexivity.
      * left. split; [reflexivity|]. split; [now exists id, r | reflexivity].
  - eexists _, _. split; [now apply upsert_one_no_uid|].
    split; [now apply reliable_set_table, reliable_served|].
    simpl table. split; [|split; [|split]].
    + intros u s. apply has_match_insert_new, fresh_absent.
    + discriminate.
    + reflexivity.
    + right. split; [|reflexivity]. now intros [? _].
Qed.

(** A run on a store that serves its requests fails no unit, and leaves a
    matching row for every unit that has a UID. *)
Lemma upsert_loop_first src docs c (w : db) :
  reliable w -> Forall (coherent src) docs ->
  exists c' w',
    for_of docs (upsert_one src) c w = (Return c', w')
    /\ reliable w' /\ failed c' = failed c
    /\ (forall u s, has_match u s (table w) -> has_match u s (table w'))
    /\ Forall (fun d => truthy (uid d) = true ->
                        has_match (uid d) src (table w')) docs.
Proof.
  intros Hr Hd. revert c w Hr.
  induction Hd as [|doc docs Hc Hd IH]; intros c w Hr; simpl.
  - exists c, w. repeat split; auto.
  - destruct (upsert_one_reliable src doc c w Hr Hc)
      as (c1 & w1 & E1 & Hr1 & Hp1 & Hm1 & Hf1 & _).
    destruct (IH c1 w1 Hr1) as (c2 & w2 & E2 & Hr2 & Hf2 & Hp2 & Hall).
    exists c2, w2. unfold bind. rewrite E1.
    split; [exact E2|]. split; [exact Hr2|]. split; [congruence|].
    split; [auto|]. constructor; [auto | exact Hall].
Qed.

(** A run over units that all have their matching row already. *)
Lemma upsert_loop_again src docs c (w : db) :
  reliable w -> Forall (coherent src) docs ->
  Forall (fun d => truthy (uid d) = true -> has_match (uid d) src (table w))
         docs ->
  exists c' w',
    for_of docs (upsert_one src) c w = (Return c', w')
    /\ failed c' = failed c
    /\ updated c'
       = updated c + length (filter (fun d => truthy (uid d) = true) docs)
    /\ inserted c' + updated c' = inserted c + updated c + length docs.
Proof.
  intros Hr Hd. revert c w Hr.
  induction Hd as [|doc docs Hc Hd IH]; intros c w Hr Hall; simpl.
  - exists c, w. repeat split; lia.
  - inversion Hall as [|? ? Hdoc Hrest]; subst.
    destruct (upsert_one_reliable src doc c w Hr Hc)
      as (c1 & w1 & E1 & Hr1 & Hp1 & _ & Hf1 & Hcase).
    destruct (IH c1 w1 Hr1) as (c2 & w2 & E2 & Hf2 & Hu2 & Hs2).
    { eapply Forall_impl; [exact Hrest|]. intros d Hdm Ht. auto. }
    exists c2, w2. unfold bind. rewrite E1.
    split; [exact E2|]. split; [congruence|].
    rewrite filter_cons.
    destruct Hcase as [(Hu & _ & ->) | (Hno & ->)].
    + rewrite decide_True by exact Hu. simpl in *. split; lia.
    + rewrite decide_False by (intros Hu; apply Hno; auto).
      simpl in *. split; lia.
Qed.

Lemma uid_count_imap embeddings_list src chunks :
  length (filter (fun d => truthy (uid d) = true)
                 (imap (to_document embeddings_list src) chunks))
  = with_uid_count chunks.
Proof.
  unfold with_uid_count.
  generalize (to_document embeddings_list src),
    (fun i ch => eq_refl : uid (to_document embeddings_list src i ch)
                           = chunk_uid ch).
  induction chunks as [|ch chunks IH]; intros f Hf; [reflexivity|].
  simpl imap. rewrite !filter_cons, Hf.
  destruct (decide (truthy (chunk_uid ch) = true)); simpl;
    rewrite IH by (intros; apply Hf); reflexivity.
Qed.

Lemma coherent_imap embeddings_list src chunks :
  Forall (coherent src) (imap (to_document embeddings_list src) chunks).
Proof.
  apply Forall_forall. intros d Hd.
  apply elem_of_lookup_imap in Hd as (i & ch & -> & _).
  apply coherent_to_document.
Qed.

(** X8. A batch run twice in a row on a store that serves its requests:
    neither run fails a unit, and the second run updates every unit that
    has a UID and inserts (again) every unit that has none, whatever the
    store held before. *)
Theorem upsert_batch_again (chunks : list chunk)
    (embeddings_list : list vector) (src : jstring) (w : db) :
  reliable w ->
  exists c1 w1 c2 w2,
    upsertDocumentsWithUID chunks embeddings_list src w = (Return c1, w1)
    /\ failed c1 = 0
    /\ upsertDocumentsWithUID chunks embeddings_list src w1 = (Return c2, w2)
    /\ failed c2 = 0
    /\ updated c2 = with_uid_count chunks
    /\ inserted c2 = length chunks - with_uid_count chunks.
Proof.
  intros Hr. unfold upsertDocumentsWithUID.
  pose proof (coherent_imap embeddings_list src chunks) as Hc.
  destruct (upsert_loop_first src _
              {| inserted := 0; updated := 0; failed := 0 |} w Hr Hc)
    as (c1 & w1 & E1 & Hr1 & Hf1 & _ & Hall).
  destruct (upsert_loop_again src _
              {| inserted := 0; updated := 0; failed := 0 |} w1 Hr1 Hc Hall)
    as (c2 & w2 & E2 & Hf2 & Hu2 & Hs2).
  exists c1, w1, c2, w2. rewrite !bind_ret_r.
  rewrite uid_count_imap in Hu2. rewrite length_imap in Hs2. simpl in *.
  repeat split; auto; lia.
Qed.

Lemma upsert_batch_again_witness :
  exists c1 w1 c2 w2,
    upsertDocumentsWithUID [sample_chunk 0; sample_chunk 1] []
      (lit "f.csv") empty_db = (Return c1, w1)
    /\ failed c1 = 0
    /\ upsertDocumentsWithUID [sample_chunk 0; sample_chunk 1] []
         (lit "f.csv") w1 = (Return c2, w2)
    /\ failed c2 = 0
    /\ updated c2 = with_uid_count [sample_chunk 0; sample_chunk 1]
    /\ inserted c2
       = length [sample_chunk 0; sample_chunk 1]
         - with_uid_count [sample_chunk 0; sample_chunk 1].
Proof.
  exact (upsert_batch_again [sample_chunk 0; sample_chunk 1] []
           (lit "f.csv") empty_db (List.Forall_nil _)).
Defined.

(** ** Deleting a source *)

Lemma filter_insert_out {A} (P : nat * A -> Prop) `{!forall x, Decision (P x)}
    (m : gmap nat A) i x :
  m !! i = None -> ~ P (i, x) -> filter P (<[i := x]> m) = filter P m.
Proof.
  intros Hi Hx. apply map_filter_insert_not'; [exact Hx|].
  intros y Hy. rewrite Hi in Hy. discriminate.
Qed.

Lemma size_of_source_split src (t : gmap nat units_vacancy) :
  size t = size (of_source src t) + size (of_other_sources src t).
Proof.
  unfold of_source, of_other_sources.
  induction t as [|id r t Hid IH] using map_ind.
  - now rewrite !map_filter_empty, map_size_empty.
  - rewrite map_size_insert_None by exact Hid.
    destruct (decide (col_source r = src)) as [Hs|Hs].
    + rewrite map_filter_insert_True by exact Hs.
      rewrite filter_insert_out by (auto; simpl; auto).
      rewrite map_size_insert_None
        by (apply map_lookup_filter_None; now left).
      lia.
    + rewrite filter_insert_out by auto.
      rewrite (map_filter_insert_True (fun kr => col_source kr.2 <> src))
        by exact Hs.
      rewrite map_size_insert_None
        by (apply map_lookup_filter_None; now left).
      lia.
Qed.

(** X9. [deleteDocumentsBySource] ([deleteExistingDocuments]): when the
    store answers the request with an error (the head of its fault script)
    the function throws that very error and the table is as before;
    otherwise it returns the number of rows the source had, no row of that
    source is left, and the rows of every other source are untouched. *)
Theorem deleteDocumentsBySource_effect (src : jstring) (w : db) :
  match faults w with
  | Some e :: _ =>
      exists w',
        deleteDocumentsBySource src w = (Throw e, w')
        /\ table w' = table w
  | _ =>
      exists w',
        deleteDocumentsBySource src w
        = (Return (size (of_source src (table w))), w')
        /\ table w' = of_other_sources src (table w)
        /\ of_source src (table w') = ∅
        /\ of_other_sources src (table w') = of_other_sources src (table w)
        /\ size (table w)
           = size (table w') + size (of_source src (table w))
  end.
Proof.
  unfold deleteDocumentsBySource, bind. simpl.
  unfold db_delete_by_source, arrive.
  destruct (faults w) as [|[e|] fs] eqn:Hf; simpl.
  2: { eexists. split; reflexivity. }
  all: eexists; rewrite length_fmap, length_map_to_list;
    (split; [reflexivity|]); simpl; (split; [reflexivity|]); repeat split.
  all: try (apply map_empty; intros id; apply map_lookup_filter_None; right;
            intros r Hr; now apply map_lookup_filter_Some in Hr as [_ Hne]).
  all: try (unfold of_other_sources; now rewrite map_filter_filter_l by auto).
  all: rewrite (size_of_source_split src (table w)); lia.
Qed.

Lemma deleteDocumentsBySource_effect_witness :
  let w := {| table := table seeded_db; clock := 1;
              faults := [Some (lit "connection reset")] |} in
  exists w',
    deleteDocumentsBySource (lit "f.csv") w
    = (Throw (lit "connection reset"), w')
    /\ table w' = table w.
Proof.
  intros w. exact (deleteDocumentsBySource_effect (lit "f.csv") w).
Defined.

(** ** Inserting in batches *)

Lemma add_rows_effect src docs now (t : gmap nat units_vacancy) :
  Forall (fun d => plain_source d = src) docs ->
  t ⊆ (add_rows docs now t).2
  /\ size (add_rows docs now t).2 = size t + length docs
  /\ size (of_source src (add_rows docs now t).2)
     = size (of_source src t) + length docs
  /\ of_other_sources src (add_rows docs now t).2 = of_other_sources src t.
Proof.
  intros Hd. revert t. induction Hd as [|doc docs Hs Hd IH]; intros t; simpl.
  - repeat split; auto; lia.
  - pose proof (fresh_absent t) as Hf.
    specialize (IH (<[fresh (dom t) := new_plain_row doc now]> t)).
    destruct (add_rows docs now _) as [ids t'] eqn:E. simpl in *.
    destruct IH as (Hsub & Hsz & Hsrc & Hoth).
    split; [|split; [|split]].
    + etrans; [|exact Hsub]. now apply insert_subseteq.
    + rewrite Hsz, map_size_insert_None by exact Hf. lia.
    + rewrite Hsrc. unfold of_source.
      rewrite map_filter_insert_True by exact Hs.
      rewrite map_size_insert_None
        by (apply map_lookup_filter_None; now left).
      lia.
    + rewrite Hoth. unfold of_other_sources.
      apply filter_insert_out; [exact Hf|]. simpl. intros Hne. now apply Hne.
Qed.

(** One bulk insert: it fails and changes nothing, or it adds a row per
    document. *)
Lemma db_insert_rows_cases src docs (w : db) :
  Forall (fun d => plain_source d = src) docs ->
  (exists e, insert_rows docs w = (Return (failure e), served w)
             /\ ~ reliable w
             /\ faults w !! 0 = Some (Some e))
  \/ (exists ids w',
        insert_rows docs w
        = (Return {| data := Some ids; error_of := None |}, w')
        /\ (reliable w -> reliable w')
        /\ table w ⊆ table w'
        /\ size (table w') = size (table w) + length docs
        /\ size (of_source src (table w'))
           = size (of_source src (table w)) + length docs
        /\ of_other_sources src (table w') = of_other_sources src (table w)
        /\ faults w' = tail (faults w)
        /\ (faults w' <> [] -> faults w !! 0 = Some None)).
Proof.
  intros Hd. simpl. unfold db_insert_rows, arrive.
  pose proof (add_rows_effect src docs (clock (served w)) (table (served w)) Hd)
    as Heff.
  destruct (add_rows docs (clock (served w)) (table (served w)))
    as [ids t'] eqn:E.
  destruct (faults w) as [|[e|] fs] eqn:Hf.
  2: { left. exists e. split; [reflexivity|]. split; [|reflexivity].
       unfold reliable. rewrite Hf.
       intros Hr. inversion Hr; subst. discriminate. }
  all: right; exists ids; eexists; (split; [reflexivity|]); simpl in *.
  all: split; [intros Hr; now apply reliable_set_table, reliable_served|].
  all: destruct Heff as (H1 & H2 & H3 & H4).
  all: rewrite ?Hf; simpl; repeat split; auto.
  all: intros Hne; try reflexivity; now contradiction Hne.
Qed.

Lemma slice_length_exact {A} (l : list A) i n :
  length (slice i (i + n) l) = Nat.min n (length l - i).
Proof.
  unfold slice. rewrite length_take, length_drop.
  replace (i + n - i) with n by lia. reflexivity.
Qed.

Lemma insertDocuments_from_spec src docs batchSize :
  0 < batchSize -> Forall (fun d => plain_source d = src) docs ->
  forall fuel i inserted (w : db),
    length docs - i < fuel ->
    exists r w',
      insertDocuments_from fuel docs batchSize i inserted w = Some (r, w')
      /\ table w ⊆ table w'
      /\ of_other_sources src (table w') = of_other_sources src (table w)
      /\ (reliable w -> reliable w' /\ exists n, r = Return n)
      /\ match r with
         | Return n =>
             n = inserted + (length docs - i)
             /\ size (table w') = size (table w) + (length docs - i)
             /\ size (of_source src (table w'))
                = size (of_source src (table w)) + (length docs - i)
         | Throw e =>
             exists k,
               i + k * batchSize < length docs
               /\ size (table w') = size (table w) + k * batchSize
               /\ take k (faults w) = replicate k None
               /\ faults w !! k = Some (Some e)
         end.
Proof.
  intros Hb Hd fuel. induction fuel as [|fuel IH]; intros i ins w Hfuel; [lia|].
  cbn [insertDocuments_from]. destruct (i <? length docs) eqn:Hi.
  - apply Nat.ltb_lt in Hi. rewrite try_catch_rethrow. unfold bind.
    set (batch := slice i (i + batchSize) docs).
    assert (Hbatch : Forall (fun d => plain_source d = src) batch).
    { apply Forall_forall. intros d Hin. unfold batch, slice in Hin.
      apply elem_of_take in Hin as (j & Hj & _).
      apply (proj1 (Forall_forall _ _) Hd).
      rewrite lookup_drop in Hj. eapply list_elem_of_lookup_2, Hj. }
    assert (Hlen : length batch = Nat.min batchSize (length docs - i))
      by apply slice_length_exact.
    destruct (db_insert_rows_cases src batch w Hbatch)
      as [(e & E & Hnr & Hhead)
         | (ids & w1 & E & Hr1 & Hsub & Hsz & Hsrc & Hoth & Hfs & Hserved)];
      rewrite E; cbn [error_of failure throw ret data].
    + exists (Throw e), (served w). split; [reflexivity|].
      split; [reflexivity|]. split; [reflexivity|].
      split; [intros Hr; contradiction|].
      exists 0. simpl. repeat split; [lia | lia | exact Hhead].
    + destruct (IH (i + batchSize) (ins + length batch) w1)
        as (r & w' & E' & Hsub' & Hoth' & Hr' & Hres); [lia|].
      exists r, w'. split; [exact E'|].
      split; [etrans; eassumption|]. split; [congruence|].
      split; [intros Hr; apply Hr', Hr1, Hr|].
      destruct r as [n|e].
      * destruct Hres as (-> & Hsz' & Hsrc'). repeat split; lia.
      * destruct Hres as (k & Hk & Hsz' & Hnone & Hat).
        exists (S k). simpl. split; [lia|].
        assert (length batch = batchSize) by lia. split; [lia|].
        assert (Hne : faults w1 <> [])
          by (intros Hnil; rewrite Hnil in Hat; discriminate Hat).
        specialize (Hserved Hne). rewrite Hfs in Hnone, Hat.
        destruct (faults w) as [|f fs]; [discriminate Hserved|].
        injection Hserved as ->. simpl in Hnone, Hat.
        split; [simpl; now rewrite Hnone | exact Hat].
  - apply Nat.ltb_ge in Hi. exists (Return ins), w.
    split; [reflexivity|]. split; [reflexivity|]. split; [reflexivity|].
    split; [intros Hr; split; [exact Hr | now exists ins]|].
    repeat split; lia.
Qed.

Lemma plain_source_imap embeddings_list src chunks :
  Forall (fun d => plain_source d = src)
         (imap (to_plain_document embeddings_list src) chunks).
Proof.
  apply Forall_forall. intros d Hd.
  now apply elem_of_lookup_imap in Hd as (i & ch & -> & _).
Qed.

(** X10. [insertDocuments] with a positive batch size (100 by default)
    returns or throws once the loop has run, never touching a row that was
    there.  When it returns, its result is the number of chunks and the
    table has grown by that many rows, all of the given source.  When a
    batch fails it throws the error the store answered that batch with,
    the first error of the store's fault script, and the batches served
    before it, each of [batchSize] rows, stay in the table.  On a store
    that serves its requests it returns. *)
Theorem insertDocuments_effect (chunks : list chunk)
    (embeddings_list : list vector) (src : jstring) (batchSize fuel : nat)
    (w : db) :
  0 < batchSize -> length chunks < fuel ->
  exists r w',
    insertDocuments fuel chunks embeddings_list src batchSize w = Some (r, w')
    /\ table w ⊆ table w'
    /\ of_other_sources src (table w') = of_other_sources src (table w)
    /\ (reliable w -> exists n, r = Return n)
    /\ match r with
       | Return n =>
           n = length chunks
           /\ size (table w') = size (table w) + length chunks
           /\ size (of_source src (table w'))
              = size (of_source src (table w)) + length chunks
       | Throw e =>
           exists k,
             k * batchSize < length chunks
             /\ size (table w') = size (table w) + k * batchSize
             /\ take k (faults w) = replicate k None
             /\ faults w !! k = Some (Some e)
       end.
Proof.
  intros Hb Hfuel. unfold insertDocuments.
  destruct (insertDocuments_from_spec src
              (imap (to_plain_document embeddings_list src) chunks) batchSize
              Hb (plain_source_imap _ _ _) fuel 0 0 w)
    as (r & w' & E & Hsub & Hoth & Hr & Hres).
  { rewrite length_imap. lia. }
  exists r, w'. rewrite length_imap in Hres.
  split; [exact E|]. split; [exact Hsub|]. split; [exact Hoth|].
  split; [intros Hrel; now apply Hr|].
  destruct r as [n|e].
  - destruct Hres as (-> & Hsz & Hsrc). repeat split; lia.
  - destruct Hres as (k & Hk & Hsz & Hnone & Hat). exists k.
    split; [lia|]. split; [exact Hsz|]. split; [exact Hnone | exact Hat].
Qed.

Lemma insertDocuments_effect_witness :
  exists r w',
    insertDocuments 4 [sample_chunk 0; sample_chunk 1; sample_chunk 2] []
      (lit "f.csv") 2 {| table := ∅; clock := 0;
                         faults := [None; Some (lit "timeout")] |}
    = Some (r, w')
    /\ r = Throw (lit "timeout") /\ size (table w') = 2.
Proof.
  destruct (insertDocuments_effect
              [sample_chunk 0; sample_chunk 1; sample_chunk 2] []
              (lit "f.csv") 2 4
              {| table := ∅; clock := 0;
                 faults := [None; Some (lit "timeout")] |})
    as (r & w' & E & _); [lia | simpl; lia |].
  exists r, w'. split; [exact E|].
  vm_compute in E. injection E as <- <-. split; reflexivity.
Defined.

(** ** processAndUpsertCSV *)

Lemma upsert_one_beside {P} src doc c (p : P) (w : db) :
  upsert_one src doc c (p, w)
  = let '(r, w') := upsert_one src doc c w in (r, (p, w')).
Proof.
  unfold upsert_one, try_catch, upsert_try, bind, throw_if_error, ret, throw.
  simpl. unfold beside_provider.
  destruct (truthy (uid doc)).
  - destruct (db_select_id (uid doc) src w) as [[r|e] w1]; [|reflexivity].
    destruct (error_of r); [reflexivity|].
    destruct (data r) as [[|id ids]|].
    + destruct (db_insert_row doc w1) as [[r'|e] w2]; [|reflexivity].
      now destruct (error_of r').
    + simpl. destruct (db_update_by_id _ id w1) as [[r'|e] w2]; [|reflexivity].
      now destruct (error_of r').
    + destruct (db_insert_row doc w1) as [[r'|e] w2]; [|reflexivity].
      now destruct (error_of r').
  - destruct (db_insert_row doc w) as [[r'|e] w2]; [|reflexivity].
    now destruct (error_of r').
Qed.

Lemma for_of_beside {P} src docs c (p : P) (w : db) :
  for_of docs (upsert_one src) c (p, w)
  = let '(r, w') := for_of docs (upsert_one src) c w in (r, (p, w')).
Proof.
  revert c w. induction docs as [|doc docs IH]; intros c w; simpl;
    [reflexivity|].
  unfold bind. rewrite upsert_one_beside.
  destruct (upsert_one src doc c w) as [[c1|e] w1]; [apply IH | reflexivity].
Qed.

Lemma upsertDocumentsWithUID_beside {P} chunks embeddings_list src
    (p : P) (w : db) :
  upsertDocumentsWithUID chunks embeddings_list src (p, w)
  = let '(r, w') := upsertDocumentsWithUID chunks embeddings_list src w in
    (r, (p, w')).
Proof.
  unfold upsertDocumentsWithUID. rewrite !bind_ret_r. apply for_of_beside.
Qed.

(** With the UID column at its default, a row has a truthy [UID] after
    annotation exactly when its UID could be derived. *)
Lemma annotated_uid o r :
  uidColumn_of o = lit "UID" ->
  truthy (get (with_uid o r) (lit "UID")) = negb (derivation_fails o r).
Proof.
  intros Ho. unfold with_uid, get, derivation_fails.
  rewrite Ho, lookup_insert_eq. simpl default.
  destruct (generateUID _ _) as [uid|] eqn:E; [|reflexivity].
  apply (generateUID_truthy _ _ _ E).
Qed.

Lemma count_annotated o rows :
  uidColumn_of o = lit "UID" ->
  length (filter (fun r => truthy (get r (lit "UID")) = true)
                 (map (with_uid o) rows))
  + length (filter (fun r => derivation_fails o r = true) rows)
  = length rows.
Proof.
  intros Ho. induction rows as [|r rows IH]; [reflexivity|].
  simpl map. rewrite !filter_cons.
  destruct (decide (truthy (get (with_uid o r) (lit "UID")) = true)) as [Ht|Ht];
    destruct (decide (derivation_fails o r = true)) as [Hf|Hf];
    rewrite (annotated_uid o r Ho) in Ht; simpl; try lia.
  - rewrite Hf in Ht. discriminate.
  - destruct (derivation_fails o r); [contradiction | now contradict Ht].
Qed.

Section PipelineProperties.
Context {W : Type} `{Store W} `{Embeddings W}.
Variable textParts : nat -> row -> jstring.

Lemma length_documents_of rows o :
  let o' := {| propertyNameColumn := Some (propertyNameColumn_of o);
               unitColumn := Some (unitColumn_of o);
               uidColumn := None |} in
  length (documents_of textParts rows o) = successCount (addUIDsToRows rows o')
  /\ length (documents_of textParts rows o)
     + length (filter (fun r => derivation_fails o' r = true) rows)
     = length rows.
Proof.
  intros o'. unfold documents_of. fold o'. rewrite length_imap.
  destruct (annotate_from_spec o' rows 0 0) as (E1 & E2 & E3).
  fold (addUIDsToRows rows o') in E1, E2, E3. rewrite E1.
  pose proof (count_annotated o' rows eq_refl) as Hlen.
  split; lia.
Qed.

Lemma chunks_of_uid rows o :
  Forall (fun ch => truthy (chunk_uid ch) = true) (chunks_of textParts rows o).
Proof.
  apply Forall_forall. intros ch Hch. unfold chunks_of in Hch.
  apply elem_of_lookup_imap in Hch as (i & doc & -> & Hdoc).
  apply list_elem_of_lookup_2 in Hdoc. unfold documents_of in Hdoc.
  apply elem_of_lookup_imap in Hdoc as (j & r & -> & Hr).
  apply list_elem_of_lookup_2, list_elem_of_filter in Hr as [Hu _].
  unfold chunk_uid, or_else, chunk_metadata, get in *. simpl.
  rewrite !lookup_insert_ne by discriminate. now rewrite Hu.
Qed.

(** X11. [processAndUpsertCSV] makes one embedding request for the chunks
    of the rows whose UID could be derived, every one of which carries a
    UID.  When that request throws, the function throws the same error and
    makes no store request.  Otherwise it returns, whatever the store does:
    [totalRows] is the number of rows, [documentsWithUID] the number of
    rows with a UID (rows without one are dropped, never stored), and
    [inserted + updated + failed = documentsWithUID]. *)
Theorem processAndUpsertCSV_outcome (rows : list row) (src : jstring)
    (o : options) (w : W) :
  let o' := {| propertyNameColumn := Some (propertyNameColumn_of o);
               unitColumn := Some (unitColumn_of o);
               uidColumn := None |} in
  let chunks := chunks_of textParts rows o in
  Forall (fun ch => truthy (chunk_uid ch) = true) chunks
  /\ match embedDocuments (map pageContent chunks) w with
     | (Throw e, w1) =>
         processAndUpsertCSV textParts rows src o w = (Throw e, w1)
     | (Return embeddings_list, w1) =>
         exists c w',
           upsertDocumentsWithUID chunks embeddings_list src w1
           = (Return c, w')
           /\ processAndUpsertCSV textParts rows src o w
              = (Return {| success := true;
                           result_source := src;
                           totalRows := length rows;
                           documentsWithUID := length chunks;
                           result_inserted := inserted c;
                           result_updated := updated c;
                           result_failed := failed c |}, w')
           /\ length chunks = successCount (addUIDsToRows rows o')
           /\ length chunks
              + length (filter (fun r => derivation_fails o' r = true) rows)
              = length rows
           /\ inserted c + updated c + failed c = length chunks
     end.
Proof.
  intros o' chunks. split; [apply chunks_of_uid|].
  unfold processAndUpsertCSV. rewrite try_catch_rethrow. unfold bind.
  fold chunks.
  destruct (embedDocuments (map pageContent chunks) w) as [[embs|e] w1];
    [|reflexivity].
  destruct (upsertDocumentsWithUID_returns chunks embs src w1)
    as (c & w' & E & Hp).
  exists c, w'. rewrite E. split; [reflexivity|].
  assert (Hl : length chunks = length (documents_of textParts rows o))
    by (unfold chunks, chunks_of; apply length_imap).
  unfold ret. rewrite <- Hl. split; [reflexivity|].
  destruct (length_documents_of rows o) as [H1 H2]. fold o' in H1, H2.
  unfold processed in Hp. repeat split; lia.
Qed.

End PipelineProperties.

Lemma has_match_docs embeddings_list embeddings_list' src chunks
    (t : gmap nat units_vacancy) :
  Forall (fun d => truthy (uid d) = true -> has_match (uid d) src t)
         (imap (to_document embeddings_list src) chunks) ->
  Forall (fun d => truthy (uid d) = true -> has_match (uid d) src t)
         (imap (to_document embeddings_list' src) chunks).
Proof.
  intros Hall. apply Forall_forall. intros d Hd.
  apply elem_of_lookup_imap in Hd as (i & ch & -> & Hch).
  apply (proj1 (Forall_forall _ _) Hall (to_document embeddings_list src i ch)).
  apply elem_of_lookup_imap. now exists i, ch.
Qed.

Lemma with_uid_count_all chunks :
  Forall (fun ch => truthy (chunk_uid ch) = true) chunks ->
  with_uid_count chunks = length chunks.
Proof.
  unfold with_uid_count. induction 1 as [|ch chunks Hc _ IH]; [reflexivity|].
  rewrite filter_cons, decide_True by exact Hc. simpl. now rewrite IH.
Qed.

(** Two runs in a row over the same chunks, each with its own embeddings,
    on a store that serves its requests. *)
Lemma upsert_twice_db chunks e1 e2 src (w : db) :
  reliable w ->
  exists c1 w1 c2 w2,
    upsertDocumentsWithUID chunks e1 src w = (Return c1, w1)
    /\ reliable w1 /\ failed c1 = 0
    /\ upsertDocumentsWithUID chunks e2 src w1 = (Return c2, w2)
    /\ reliable w2 /\ failed c2 = 0
    /\ updated c2 = with_uid_count chunks
    /\ inserted c2 = length chunks - with_uid_count chunks
    /\ size (table w2) = size (table w1) + inserted c2.
Proof.
  intros Hr. unfold upsertDocumentsWithUID.
  destruct (upsert_loop_first src _
              {| inserted := 0; updated := 0; failed := 0 |} w Hr
              (coherent_imap e1 src chunks))
    as (c1 & w1 & E1 & Hr1 & Hf1 & _ & Hall).
  apply (has_match_docs e1 e2) in Hall.
  destruct (upsert_loop_again src _
              {| inserted := 0; updated := 0; failed := 0 |} w1 Hr1
              (coherent_imap e2 src chunks) Hall)
    as (c2 & w2 & E2 & Hf2 & Hu2 & Hs2).
  destruct (upsert_loop_first src _
              {| inserted := 0; updated := 0; failed := 0 |} w1 Hr1
              (coherent_imap e2 src chunks))
    as (c2' & w2' & E2' & Hr2 & _).
  destruct (upsert_loop_db src (imap (to_document e2 src) chunks)
              {| inserted := 0; updated := 0; failed := 0 |} w1)
    as (c2'' & w2'' & E2'' & Hsz & _).
  rewrite E2 in E2', E2''. injection E2' as <- <-. injection E2'' as <- <-.
  exists c1, w1, c2, w2. rewrite !bind_ret_r.
  rewrite uid_count_imap in Hu2. rewrite length_imap in Hs2. simpl in *.
  repeat split; auto; lia.
Qed.

Section Reingestion.
Context {P : Type} `{Embeddings P}.
Variable textParts : nat -> row -> jstring.

(** X12. [processAndUpsertCSV] run twice in a row on the same rows, with a
    provider that answers and a store that serves its requests: both runs
    return, neither fails a unit, and the second run inserts nothing: it
    updates every document and leaves the number of stored rows as it
    was. *)
Theorem processAndUpsertCSV_again (rows : list row) (src : jstring)
    (o : options) (p : P) (w : db) :
  always_answers -> reliable w ->
  exists res1 p1 w1 res2 p2 w2,
    processAndUpsertCSV textParts rows src o (p, w) = (Return res1, (p1, w1))
    /\ processAndUpsertCSV textParts rows src o (p1, w1)
       = (Return res2, (p2, w2))
    /\ result_failed res1 = 0
    /\ result_inserted res2 = 0
    /\ result_updated res2 = documentsWithUID res2
    /\ result_failed res2 = 0
    /\ size (table w2) = size (table w1).
Proof.
  intros Ha Hr.
  set (chunks := chunks_of textParts rows o).
  destruct (Ha (map pageContent chunks) p) as (e1 & p1 & Ee1).
  destruct (Ha (map pageContent chunks) p1) as (e2 & p2 & Ee2).
  destruct (upsert_twice_db chunks e1 e2 src w Hr)
    as (c1 & w1 & c2 & w2 & E1 & _ & Hf1 & E2 & _ & Hf2 & Hu2 & Hi2 & Hsz).
  rewrite (with_uid_count_all chunks) in Hu2, Hi2
    by apply chunks_of_uid.
  assert (Hl : length chunks = length (documents_of textParts rows o))
    by (unfold chunks, chunks_of; apply length_imap).
  eexists _, p1, w1, _, p2, w2.
  unfold processAndUpsertCSV. rewrite !try_catch_rethrow. unfold bind.
  fold chunks. simpl embedDocuments. unfold beside_store.
  rewrite Ee1, Ee2, !upsertDocumentsWithUID_beside, E1, E2.
  split; [reflexivity|]. split; [reflexivity|]. simpl.
  repeat split; lia.
Qed.

End Reingestion.

Lemma processAndUpsertCSV_again_witness :
  let rows : list row :=
    [ {[ lit "Property Name" := Str (lit "S0002 - 101 Maple");
         lit "Unit" := Str (lit "D2") ]};
      {[ lit "Property Name" := Str (lit "101 Maple");
         lit "Unit" := Str (lit "D3") ]};
      {[ lit "Property Name" := Str (lit "S0020 - Oak Plaza");
         lit "Unit" := Str (lit "  1 S ") ]} ] in
  exists res1 p1 w1 res2 p2 w2,
    @processAndUpsertCSV _ _ (@embeddings_beside _ null_provider)
      (fun _ _ => lit "text") rows (lit "f.csv") no_options (tt, empty_db)
    = (Return res1, (p1, w1))
    /\ @processAndUpsertCSV _ _ (@embeddings_beside _ null_provider)
         (fun _ _ => lit "text") rows (lit "f.csv") no_options (p1, w1)
       = (Return res2, (p2, w2))
    /\ result_failed res1 = 0
    /\ result_inserted res2 = 0
    /\ result_updated res2 = documentsWithUID res2
    /\ result_failed res2 = 0
    /\ size (table w2) = size (table w1).
Proof.
  intros rows.
  refine (@processAndUpsertCSV_again unit null_provider (fun _ _ => lit "text")
            rows (lit "f.csv") no_options tt empty_db _ (List.Forall_nil _)).
  intros texts []. eexists _, tt. reflexivity.
Defined.

(** On these three rows, one of which has no property code, the first run
    inserts two documents and the second updates them. *)
Example processAndUpsertCSV_three_rows :
  let rows : list row :=
    [ {[ lit "Property Name" := Str (lit "S0002 - 101 Maple");
         lit "Unit" := Str (lit "D2") ]};
      {[ lit "Property Name" := Str (lit "101 Maple");
         lit "Unit" := Str (lit "D3") ]};
      {[ lit "Property Name" := Str (lit "S0020 - Oak Plaza");
         lit "Unit" := Str (lit "  1 S ") ]} ] in
  let run pw :=
    @processAndUpsertCSV _ _ (@embeddings_beside _ null_provider)
      (fun _ _ => lit "text") rows (lit "f.csv") no_options pw in
  (run (tt, empty_db)).1
  = Return {| success := true; result_source := lit "f.csv"; totalRows := 3;
              documentsWithUID := 2; result_inserted := 2;
              result_updated := 0; result_failed := 0 |}
  /\ (run (run (tt, empty_db)).2).1
     = Return {| success := true; result_source := lit "f.csv";
                 totalRows := 3; documentsWithUID := 2; result_inserted := 0;
                 result_updated := 2; result_failed := 0 |}.
Proof. split; vm_compute; reflexivity. Qed.

(** ** ingestCSV *)

Section IngestionProperties.
Context {W : Type} `{BulkStore W} `{Embeddings W} `{JobStore W}.
Variable processCSV : jstring -> M W (list chunk).
Variable basename : jstring -> jstring.

(** X13. [ingestCSV] on a file that cannot be processed, or that yields no
    chunk: the error of [processCSV], or "No valid chunks created from
    CSV", is thrown as it is, and nothing else has happened: no job is
    created, nothing is deleted, no embedding is requested. *)
Theorem ingestCSV_nothing_to_ingest (fuel : nat) (filePath : jstring)
    (o : ingest_options) (w : W) :
  match processCSV filePath w with
  | (Throw e, w1) =>
      ingestCSV processCSV basename fuel filePath o w = Some (Throw e, w1)
  | (Return [], w1) =>
      ingestCSV processCSV basename fuel filePath o w
      = Some (Throw no_chunks_message, w1)
  | (Return (_ :: _), _) => True
  end.
Proof.
  unfold ingestCSV, ingest_begin, bind.
  destruct (processCSV filePath w) as [[[|ch chunks]|e] w1]; [| exact I |];
    reflexivity.
Qed.

End IngestionProperties.

Lemma deleteDocumentsBySource_ok src (w : db) :
  reliable w ->
  deleteDocumentsBySource src w
  = (Return (size (of_source src (table w))),
     set_table (of_other_sources src (table w)) (served w)).
Proof.
  intros Hr. unfold deleteDocumentsBySource, bind. simpl.
  unfold db_delete_by_source. rewrite (proj1 (arrive_reliable _ Hr)). simpl.
  now rewrite length_fmap, length_map_to_list.
Qed.

Lemma deleteDocumentsBySource_beside {P} src (p : P) (w : db) :
  deleteDocumentsBySource src (p, w)
  = let '(r, w') := deleteDocumentsBySource src w in (r, (p, w')).
Proof.
  unfold deleteDocumentsBySource, bind. simpl. unfold beside_provider.
  destruct (db_delete_by_source src w) as [[r|e] w']; [|reflexivity].
  now destruct (error_of r).
Qed.


Section SystemProperties.
Context {P : Type} `{Embeddings P}.

Lemma generateEmbeddings_from_system fuel chunks batchSize i embeddings_list
    (p : P) (jobs : gmap nat ingestion_job) (w : db) :
  generateEmbeddings_from fuel chunks batchSize i embeddings_list
    ((p, jobs), w)
  = match generateEmbeddings_from fuel chunks batchSize i embeddings_list p
    with
    | Some (r, p') => Some (r, ((p', jobs), w))
    | None => None
    end.
Proof.
  revert i embeddings_list p. induction fuel as [|fuel IH]; intros i acc p;
    [reflexivity|].
  cbn [generateEmbeddings_from]. destruct (i <? length chunks); [|reflexivity].
  rewrite !try_catch_rethrow. simpl embedDocuments.
  destruct (embedDocuments _ p) as [[vs|e] p1]; [apply IH | reflexivity].
Qed.


End SystemProperties.



Lemma reliable_cleared clear src w : reliable w -> reliable (cleared clear src w).
Proof.
  intros Hr. destruct clear; [|exact Hr].
  apply reliable_set_table, reliable_served, Hr.
Qed.



Section SystemIngestion.
Context {P : Type} `{Embeddings P}.
Variable processCSV : jstring -> M (system P) (list chunk).
Variable basename : jstring -> jstring.

Lemma createIngestionJob_system fileName n (p : P)
    (jobs : gmap nat ingestion_job) (w : db) :
  reliable w ->
  exists id started,
    jobs !! id = None
    /\ createIngestionJob fileName n ((p, jobs), w)
       = (Return (Some (id, {| file_name := fileName;
                               status := processing;
                               total_chunks := n;
                               processed_chunks := 0;
                               error_message := None;
                               started_at := started;
                               completed_at := None |})),
          ((p, <[id := {| file_name := fileName;
                          status := processing;
                          total_chunks := n;
                          processed_chunks := 0;
                          error_message := None;
                          started_at := started;
                          completed_at := None |}]> jobs), served w)).
Proof.
  intros Hr. exists (fresh (dom jobs)), (clock (served w)).
  split; [apply not_elem_of_dom, is_fresh|].
  unfold createIngestionJob, bind. cbn [insert_job system_jobs].
  unfold system_insert_job. now rewrite (proj1 (arrive_reliable _ Hr)).
Qed.

Lemma updateIngestionJob_system id st n message (p : P)
    (jobs : gmap nat ingestion_job) (w : db) :
  reliable w ->
  updateIngestionJob (Some id) st n message ((p, jobs), w)
  = (Return tt,
     ((p, alter (apply_job_updates
                   {| set_status := st;
                      set_processed_chunks := n;
                      set_completed_at :=
                        match st with
                        | completed | failed_job => Some (clock w)
                        | _ => None
                        end;
                      set_error_message :=
                        match message with
                        | Some (c :: m) => Some (c :: m)
                        | _ => None
                        end |}) id jobs), served w)).
Proof.
  intros Hr. unfold updateIngestionJob, bind.
  cbn [update_job job_date_now system_jobs snd].
  unfold system_update_job. now rewrite (proj1 (arrive_reliable _ Hr)).
Qed.

Lemma clearing_system (clear : bool) src (p : P)
    (jobs : gmap nat ingestion_job) (w : db) :
  reliable w ->
  (if clear
   then liftF (W := system P) (do ' deleteExistingDocuments src; ret tt)
   else liftF (ret tt)) ((p, jobs), w)
  = Some (Return tt, ((p, jobs), cleared clear src w)).
Proof.
  intros Hr. destruct clear; [|reflexivity].
  unfold liftF, bind, deleteExistingDocuments.
  rewrite deleteDocumentsBySource_beside, deleteDocumentsBySource_ok by done.
  reflexivity.
Qed.


End SystemIngestion.

Section IngestionOutcomes.
Context {P : Type} `{Embeddings P}.
Variable processCSV : jstring -> M (system P) (list chunk).
Variable basename : jstring -> jstring.

Lemma ingest_begin_system filePath (track : bool) chunks (s : system P)
    (p : P) (jobs : gmap nat ingestion_job) (w : db) :
  reliable w ->
  processCSV filePath s = (Return chunks, ((p, jobs), w)) ->
  0 < length chunks ->
  exists job jobs1 w1,
    ingest_begin processCSV filePath (basename filePath) track s
    = (Return (chunks, job), ((p, jobs1), w1))
    /\ reliable w1 /\ table w1 = table w
    /\ if track
       then exists id started,
              jobs !! id = None
              /\ job = Some (id, new_job_row
                                   {| new_file_name := basename filePath;
                                      new_status := processing;
                                      new_total_chunks := length chunks;
                                      new_processed_chunks := 0 |} started)
              /\ jobs1 = <[id := new_job_row
                                   {| new_file_name := basename filePath;
                                      new_status := processing;
                                      new_total_chunks := length chunks;
                                      new_processed_chunks := 0 |} started]>
                           jobs
       else job = None /\ jobs1 = jobs.
Proof.
  intros Hr Hcsv Hlen. unfold ingest_begin, bind at 1. rewrite Hcsv.
  destruct (length chunks =? 0) eqn:Hz; [apply Nat.eqb_eq in Hz; lia|].
  destruct track.
  - destruct (createIngestionJob_system (basename filePath) (length chunks)
                p jobs w Hr) as (id & started & Hfresh & E).
    unfold bind. rewrite E. eexists _, _, _. split; [reflexivity|].
    split; [now apply reliable_served|]. split; [reflexivity|].
    exists id, started. auto.
  - exists None, jobs, w. auto.
Qed.


Lemma ingest_rest_embedding_throw fuel chunks src (clear : bool)
    (job : option (nat * ingestion_job)) e (p p1 : P)
    (jobs : gmap nat ingestion_job) (w : db) :
  reliable w ->
  generateEmbeddings fuel chunks default_batchSize p = Some (Throw e, p1) ->
  ingest_rest fuel chunks src clear job ((p, jobs), w)
  = Some (Throw e, ((p1, jobs), cleared clear src w)).
Proof.
  intros Hr Eg. unfold ingest_rest, bindF.
  rewrite clearing_system by done.
  unfold generateEmbeddings in *. rewrite generateEmbeddings_from_system.
  now rewrite Eg.
Qed.

(** X15. [ingestCSV] when [generateEmbeddings] throws, on a store that
    serves its requests: the provider's error is thrown again; with
    [clearExisting] (the default) the rows of the source have already been
    deleted and nothing has replaced them, the other rows being as they
    were, and without it the table is untouched; a tracked ingestion
    leaves one new job, failed, with no chunk processed and the error's
    message, when it is not empty. *)
Theorem ingestCSV_embedding_failure (fuel : nat) (filePath : jstring)
    (o : ingest_options) (chunks : list chunk) (e : error) (s : system P)
    (p p1 : P) (jobs : gmap nat ingestion_job) (w : db) :
  reliable w ->
  processCSV filePath s = (Return chunks, ((p, jobs), w)) ->
  0 < length chunks ->
  generateEmbeddings fuel chunks default_batchSize p = Some (Throw e, p1) ->
  let src :=
    match option_source o with
    | Some (c :: m) => c :: m
    | _ => basename filePath
    end in
  exists jobs' w',
    ingestCSV processCSV basename fuel filePath o s
    = Some (Throw e, ((p1, jobs'), w'))
    /\ table w'
       = (if default true (clearExisting o)
          then of_other_sources src (table w) else table w)
    /\ if default true (trackJob o)
       then exists id started finished,
              jobs !! id = None
              /\ jobs' = <[id := closed_job (basename filePath) failed_job
                                   (length chunks) 0
                                   (match e with
                                    | [] => None
                                    | c :: m => Some (c :: m)
                                    end)
                                   started finished]> jobs
       else jobs' = jobs.
Proof.
  intros Hr Hcsv Hlen Eg src. unfold ingestCSV. fold src.
  destruct (ingest_begin_system filePath (default true (trackJob o)) chunks
              s p jobs w Hr Hcsv Hlen)
    as (job & jobs1 & w1 & E & Hr1 & Ht & Hjob).
  rewrite E. unfold try_catchF.
  rewrite (ingest_rest_embedding_throw fuel chunks src
             (default true (clearExisting o)) job e p p1 jobs1 w1 Hr1 Eg).
  unfold liftF, ingest_catch, bind.
  assert (Htab : table (cleared (default true (clearExisting o)) src w1)
                 = if default true (clearExisting o)
                   then of_other_sources src (table w) else table w).
  { rewrite <- Ht. now destruct (default true (clearExisting o)). }
  destruct (default true (trackJob o)).
  - destruct Hjob as (id & started & Hfresh & -> & ->).
    rewrite updateIngestionJob_system by now apply reliable_cleared.
    cbn [throw]. eexists _, _. split; [reflexivity|].
    split; [exact Htab|].
    exists id, started,
      (clock (cleared (default true (clearExisting o)) src w1)).
    split; [exact Hfresh|]. rewrite alter_insert_eq. now destruct e.
  - destruct Hjob as [-> ->]. cbn [ret throw]. eexists _, _.
    split; [reflexivity|]. split; [exact Htab | reflexivity].
Qed.

End IngestionOutcomes.


Lemma ingestCSV_embedding_failure_witness :
  let processCSV : jstring -> M (system nat) (list chunk) :=
    fun _ => ret [sample_chunk 0; sample_chunk 1] in
  let o := {| clearExisting := None; trackJob := None;
              option_source := Some (lit "f.csv") |} in
  exists jobs' w',
    @ingestCSV _ _ (@system_embeddings _ quota_provider) _ processCSV id 3
      (lit "units.csv") o ((0, ∅), seeded_db)
    = Some (Throw (lit "Rate limit reached"), ((0, jobs'), w'))
    /\ table w' = of_other_sources (lit "f.csv") (table seeded_db)
    /\ exists id started finished,
         (∅ : gmap nat ingestion_job) !! id = None
         /\ jobs' = <[id := closed_job (lit "units.csv") failed_job 2 0
                              (Some (lit "Rate limit reached"))
                              started finished]> ∅.
Proof.
  intros processCSV o.
  refine (@ingestCSV_embedding_failure nat quota_provider processCSV id 3
            (lit "units.csv") o [sample_chunk 0; sample_chunk 1]
            (lit "Rate limit reached") ((0, ∅), seeded_db) 0 0 ∅ seeded_db
            _ eq_refl _ eq_refl).
  - repeat constructor.
  - simpl. lia.
Defined.

(** With the default options a failed embedding request costs the file its
    rows: the seeded store held one row of "f.csv" and holds none after. *)
Example ingestCSV_failure_loses_rows :
  let processCSV : jstring -> M (system nat) (list chunk) :=
    fun _ => ret [sample_chunk 0; sample_chunk 1] in
  let o := {| clearExisting := None; trackJob := None;
              option_source := Some (lit "f.csv") |} in
  size (of_source (lit "f.csv") (table seeded_db)) = 1
  /\ exists e s',
       @ingestCSV _ _ (@system_embeddings _ quota_provider) _ processCSV id 3
         (lit "units.csv") o ((0, ∅), seeded_db) = Some (Throw e, s')
       /\ size (of_source (lit "f.csv") (table s'.2)) = 0.
Proof.
  intros processCSV o. split; [now vm_compute|].
  eexists _, _. split; [now vm_compute|]. now vm_compute.
Qed.
